(** * AdventureGPT game-state engine: a shallow embedding and its properties

    The development follows the C engine: [adventure_engine.h] (the data
    model), [adventure_engine.c] in its json-c form and in its legacy cJSON
    form (the world document loaders and the state operations), and
    [engine/main.c] (the command handler).

    Conventions of the embedding.
    - A C string is a [string]; the byte 0 never occurs inside one.  A buffer
      [char b[N]] holds a string of fewer than [N] bytes; the predicate
      [wf_GameState] records these bounds of the struct declarations.
    - An array together with its [_count] field is a list; two parallel
      arrays (flag names and flag values) are a list of pairs.
    - A function that receives [GameState* game] and may print becomes a
      function from the state to a result, the state afterwards and the lines
      printed; pointer arguments are taken to be non-NULL (every function
      returns at once on NULL, touching nothing).
    - A [Location*] into [game->locations] is an index into the list. *)

From Stdlib Require Import Ascii.
From stdpp Require Import prelude strings pretty.

Set Warnings "-clear-no-such-hyp".

(** ** The parts of libc the engine uses *)

(** [tolower] in the C locale. *)
Definition tolower (c : ascii) : ascii :=
  let n := nat_of_ascii c in
  if (65 <=? n) && (n <=? 90) then ascii_of_nat (n + 32) else c.

Fixpoint str_tolower (s : string) : string :=
  match s with
  | EmptyString => EmptyString
  | String c s' => String (tolower c) (str_tolower s')
  end.

(** The first [n] bytes of a string: what [strncpy] and [strncmp] see. *)
Fixpoint str_take (n : nat) (s : string) : string :=
  match n, s with
  | S n', String c s' => String c (str_take n' s')
  | _, _ => EmptyString
  end.

(** [strcmp(a, b) == 0]. *)
Definition strcmp0 (a b : string) : bool := bool_decide (a = b).

(** [strcasecmp(a, b) == 0]. *)
Definition strcasecmp0 (a b : string) : bool :=
  bool_decide (str_tolower a = str_tolower b).

(** [strncmp(a, b, n) == 0]. *)
Definition strncmp0 (a b : string) (n : nat) : bool :=
  bool_decide (str_take n a = str_take n b).

(** [strchr(s, c)]: the suffix of [s] that starts at the first [c], or NULL. *)
Fixpoint strchr (s : string) (c : ascii) : option string :=
  match s with
  | EmptyString => None
  | String d s' => if bool_decide (d = c) then Some s else strchr s' c
  end.

(** Pointer increment on a C string: [p + 1]. *)
Definition str_next (s : string) : string :=
  match s with
  | EmptyString => EmptyString
  | String _ s' => s'
  end.

(** ** adventure_engine.h *)

Definition MAX_STRING_LENGTH : nat := 256.
Definition MAX_DESCRIPTION_LENGTH : nat := 1024.
Definition MAX_EXITS : nat := 8.
Definition MAX_ITEMS : nat := 32.
Definition MAX_LOCATIONS : nat := 256.
Definition MAX_INVENTORY_ITEMS : nat := 64.
Definition MAX_FLAGS : nat := 128.

Record Exit := {
  direction : string;          (* char direction[32] *)
  target_location : string     (* char target_location[64] *)
}.

Record Location := {
  loc_id : string;                          (* char id[64] *)
  loc_title : string;                       (* char title[MAX_STRING_LENGTH] *)
  loc_description : string;                 (* char description[MAX_DESCRIPTION_LENGTH] *)
  image_path : string;                      (* char image_path[MAX_STRING_LENGTH] *)
  first_visit_text : string;                (* char first_visit_text[MAX_DESCRIPTION_LENGTH] *)
  visited : bool;
  exits : list Exit;                        (* exits[MAX_EXITS], exits_count *)
  items : list string;                      (* items[MAX_ITEMS][64], items_count *)
  flags_required : list (string * bool);    (* flags_required, _values, _count *)
  flags_set : list (string * bool)          (* flags_set, _values, _count *)
}.

Record InventoryItem := {
  item_id : string;            (* char id[64] *)
  name : string;               (* char name[MAX_STRING_LENGTH] *)
  item_description : string;   (* char description[MAX_DESCRIPTION_LENGTH] *)
  takeable : bool;
  useable : bool;
  use_text : string            (* char use_text[MAX_DESCRIPTION_LENGTH] *)
}.

Record GameMeta := {
  meta_title : string;         (* char title[MAX_STRING_LENGTH] *)
  author : string;             (* char author[MAX_STRING_LENGTH] *)
  meta_description : string;   (* char description[MAX_DESCRIPTION_LENGTH] *)
  version : string             (* char version[32] *)
}.

Record Player := {
  inventory : list string;             (* inventory[MAX_INVENTORY_ITEMS][64], inventory_count *)
  current_location : string;           (* char current_location[64] *)
  flags : list (string * bool)         (* flags, flag_values, flags_count *)
}.

Record GameState := {
  meta : GameMeta;
  start_location : string;                  (* char start_location[64] *)
  locations : list Location;                (* locations[MAX_LOCATIONS], locations_count *)
  inventory_items : list InventoryItem;     (* inventory_items[...], inventory_items_count *)
  game_flags : list (string * bool);        (* game_flags, game_flag_values, game_flags_count *)
  player : Player
}.

(** What [calloc] hands out: every byte zero. *)
Definition zero_Location : Location :=
  {| loc_id := ""; loc_title := ""; loc_description := ""; image_path := "";
     first_visit_text := ""; visited := false; exits := []; items := [];
     flags_required := []; flags_set := [] |}.

Definition zero_InventoryItem : InventoryItem :=
  {| item_id := ""; name := ""; item_description := ""; takeable := false;
     useable := false; use_text := "" |}.

Definition zero_GameMeta : GameMeta :=
  {| meta_title := ""; author := ""; meta_description := ""; version := "" |}.

Definition zero_Player : Player :=
  {| inventory := []; current_location := ""; flags := [] |}.

Definition zero_GameState : GameState :=
  {| meta := zero_GameMeta; start_location := ""; locations := [];
     inventory_items := []; game_flags := []; player := zero_Player |}.

(** Field assignments. *)
Definition set_visited (v : bool) (l : Location) : Location :=
  {| loc_id := loc_id l; loc_title := loc_title l;
     loc_description := loc_description l; image_path := image_path l;
     first_visit_text := first_visit_text l; visited := v; exits := exits l;
     items := items l; flags_required := flags_required l;
     flags_set := flags_set l |}.

Definition set_player (p : Player) (g : GameState) : GameState :=
  {| meta := meta g; start_location := start_location g;
     locations := locations g; inventory_items := inventory_items g;
     game_flags := game_flags g; player := p |}.

Definition set_locations (ls : list Location) (g : GameState) : GameState :=
  {| meta := meta g; start_location := start_location g; locations := ls;
     inventory_items := inventory_items g; game_flags := game_flags g;
     player := player g |}.

Definition set_game_flags (fs : list (string * bool)) (g : GameState) : GameState :=
  {| meta := meta g; start_location := start_location g;
     locations := locations g; inventory_items := inventory_items g;
     game_flags := fs; player := player g |}.

Definition set_current_location (s : string) (p : Player) : Player :=
  {| inventory := inventory p; current_location := s; flags := flags p |}.

Definition set_inventory (inv : list string) (p : Player) : Player :=
  {| inventory := inv; current_location := current_location p; flags := flags p |}.

Definition set_flags (fs : list (string * bool)) (p : Player) : Player :=
  {| inventory := inventory p; current_location := current_location p; flags := fs |}.

(** ** The bounds of the struct declarations *)

(** A string fits [char b[n]] when its length leaves room for the
    terminating zero. *)
Definition fits (n : nat) (s : string) : Prop := String.length s < n.

Definition wf_flags (fs : list (string * bool)) : Prop :=
  length fs ≤ MAX_FLAGS ∧ Forall (λ f, fits 64 f.1) fs.

Definition wf_Exit (e : Exit) : Prop :=
  fits 32 (direction e) ∧ fits 64 (target_location e).

Definition wf_Location (l : Location) : Prop :=
  fits 64 (loc_id l) ∧ fits MAX_STRING_LENGTH (loc_title l) ∧
  fits MAX_DESCRIPTION_LENGTH (loc_description l) ∧
  fits MAX_STRING_LENGTH (image_path l) ∧
  fits MAX_DESCRIPTION_LENGTH (first_visit_text l) ∧
  length (exits l) ≤ MAX_EXITS ∧ Forall wf_Exit (exits l) ∧
  length (items l) ≤ MAX_ITEMS ∧ Forall (fits 64) (items l) ∧
  wf_flags (flags_required l) ∧ wf_flags (flags_set l).

Definition wf_InventoryItem (it : InventoryItem) : Prop :=
  fits 64 (item_id it) ∧ fits MAX_STRING_LENGTH (name it) ∧
  fits MAX_DESCRIPTION_LENGTH (item_description it) ∧
  fits MAX_DESCRIPTION_LENGTH (use_text it).

Definition wf_GameMeta (m : GameMeta) : Prop :=
  fits MAX_STRING_LENGTH (meta_title m) ∧ fits MAX_STRING_LENGTH (author m) ∧
  fits MAX_DESCRIPTION_LENGTH (meta_description m) ∧ fits 32 (version m).

Definition wf_Player (p : Player) : Prop :=
  length (inventory p) ≤ MAX_INVENTORY_ITEMS ∧ Forall (fits 64) (inventory p) ∧
  fits 64 (current_location p) ∧ wf_flags (flags p).

Definition wf_GameState (g : GameState) : Prop :=
  wf_GameMeta (meta g) ∧ fits 64 (start_location g) ∧
  length (locations g) ≤ MAX_LOCATIONS ∧ Forall wf_Location (locations g) ∧
  length (inventory_items g) ≤ MAX_INVENTORY_ITEMS ∧
  Forall wf_InventoryItem (inventory_items g) ∧
  wf_flags (game_flags g) ∧ wf_Player (player g).

(** ** adventure_engine.c: the state operations *)

(** [safe_strcpy(dest, src, dest_size)]: the new contents of [dest].  A NULL
    source empties the destination; otherwise [strncpy] copies at most
    [dest_size - 1] bytes and the last byte of [dest] is set to zero. *)
Definition safe_strcpy (src : option string) (dest_size : nat) : string :=
  match src with
  | None => ""
  | Some s => str_take (dest_size - 1) s
  end.
Global Arguments safe_strcpy : simpl never.

(** The result of an operation: return value, state afterwards, lines printed. *)
Definition Eng (A : Type) : Type := A * GameState * list string.

Definition ret_of {A} (r : Eng A) : A := r.1.1.
Definition state_of {A} (r : Eng A) : GameState := r.1.2.
Definition out_of {A} (r : Eng A) : list string := r.2.

(** [get_location_by_id]: the first slot whose id compares equal, as its
    index and contents; [None] is the NULL pointer. *)
Definition get_location_by_id (game : GameState) (location_id : string)
    : option (nat * Location) :=
  list_find (λ l, strcmp0 (loc_id l) location_id = true) (locations game).

Definition get_current_location (game : GameState) : option (nat * Location) :=
  get_location_by_id game (current_location (player game)).

(** The loop of [move_player] over the exits of the current location, from
    the exit it has reached onwards. *)
Fixpoint move_player_loop (game : GameState) (dir : string) (es : list Exit)
    : Eng bool :=
  match es with
  | [] => (false, game, ["You can't go " +:+ dir +:+ " from here."])
  | e :: es' =>
      if strcasecmp0 (direction e) dir then
        match get_location_by_id game (target_location e) with
        | Some (j, target) =>
            let game1 :=
              set_player
                (set_current_location
                   (safe_strcpy (Some (target_location e)) 64) (player game))
                game in
            let game2 :=
              set_locations (<[j := set_visited true target]> (locations game1))
                game1 in
            (true, game2, ["You go " +:+ dir +:+ "."])
        | None => (false, game, ["Error: Exit leads to non-existent location!"])
        end
      else move_player_loop game dir es'
  end.

Definition move_player (game : GameState) (dir : string) : Eng bool :=
  match get_current_location game with
  | None => (false, game, [])
  | Some (_, cur) => move_player_loop game dir (exits cur)
  end.

Fixpoint has_item_loop (inv : list string) (id : string) : bool :=
  match inv with
  | [] => false
  | x :: inv' => if strcmp0 x id then true else has_item_loop inv' id
  end.

Definition has_item (game : GameState) (id : string) : Eng bool :=
  (has_item_loop (inventory (player game)) id, game, []).

Definition add_item_to_inventory (game : GameState) (id : string) : Eng bool :=
  if MAX_INVENTORY_ITEMS <=? length (inventory (player game)) then
    (false, game, ["Your inventory is full!"])
  else if ret_of (has_item game id) then
    (false, game, ["You already have that item."])
  else
    (true,
     set_player
       (set_inventory (inventory (player game) ++ [safe_strcpy (Some id) 64])
          (player game))
       game,
     []).

(** The scan of [remove_item_from_inventory]: on the first equal entry the
    entries after it are shifted down by one and the count drops; [None] when
    the scan reaches the end. *)
Fixpoint remove_item_loop (inv : list string) (id : string) : option (list string) :=
  match inv with
  | [] => None
  | x :: inv' =>
      if strcmp0 x id then Some inv'
      else (λ r, x :: r) <$> remove_item_loop inv' id
  end.

Definition remove_item_from_inventory (game : GameState) (id : string) : Eng bool :=
  match remove_item_loop (inventory (player game)) id with
  | Some inv' => (true, set_player (set_inventory inv' (player game)) game, [])
  | None => (false, game, [])
  end.

(** One of the two scans of [get_flag]: the value of the first entry whose
    name compares equal. *)
Fixpoint find_flag (fs : list (string * bool)) (flag_name : string) : option bool :=
  match fs with
  | [] => None
  | (n, v) :: fs' => if strcmp0 n flag_name then Some v else find_flag fs' flag_name
  end.

Definition get_flag (game : GameState) (flag_name : string) : Eng bool :=
  match find_flag (flags (player game)) flag_name with
  | Some v => (v, game, [])
  | None =>
      match find_flag (game_flags game) flag_name with
      | Some v => (v, game, [])
      | None => (false, game, [])
      end
  end.

(** One of the two scans of [set_flag]: the value of the first entry whose
    name compares equal is overwritten; [None] when there is none. *)
Fixpoint update_flag (fs : list (string * bool)) (flag_name : string) (value : bool)
    : option (list (string * bool)) :=
  match fs with
  | [] => None
  | (n, v) :: fs' =>
      if strcmp0 n flag_name then Some ((n, value) :: fs')
      else (λ r, (n, v) :: r) <$> update_flag fs' flag_name value
  end.

Definition set_flag (game : GameState) (flag_name : string) (value : bool) : Eng unit :=
  match update_flag (flags (player game)) flag_name value with
  | Some fs => (tt, set_player (set_flags fs (player game)) game, [])
  | None =>
      match update_flag (game_flags game) flag_name value with
      | Some fs => (tt, set_game_flags fs game, [])
      | None =>
          if length (flags (player game)) <? MAX_FLAGS then
            (tt,
             set_player
               (set_flags
                  (flags (player game) ++ [(safe_strcpy (Some flag_name) 64, value)])
                  (player game))
               game,
             [])
          else (tt, game, [])
      end
  end.

(** [check_location_requirements]: every required flag has its required
    value. *)
Fixpoint check_requirements_loop (game : GameState) (req : list (string * bool)) : bool :=
  match req with
  | [] => true
  | (n, v) :: req' =>
      if negb (eqb (ret_of (get_flag game n)) v) then false
      else check_requirements_loop game req'
  end.

Definition check_location_requirements (game : GameState) (location : Location)
    : Eng bool :=
  (check_requirements_loop game (flags_required location), game, []).

(** ** World documents *)

(** A parsed document, as both JSON libraries hand it to the loader: a tree
    whose objects keep their members in document order.  json-c represents
    the JSON value null by the NULL pointer, which is what [JNull] stands for
    on that side; cJSON has an item of type cJSON_NULL for it. *)
#[warnings="-register-all"] Inductive json : Type :=
  | JNull
  | JBool (b : bool)
  | JNumber (literal : string)
  | JString (s : string)
  | JArray (elements : list json)
  | JObject (members : list (string * json)).

(** *** json-c *)

(** [json_object_object_get_ex(obj, key, &value)]: [Some value] when it
    returns true.  The key is looked up exactly; anything but an object has
    no keys. *)
Fixpoint object_lookup (ms : list (string * json)) (key : string) : option json :=
  match ms with
  | [] => None
  | (k, v) :: ms' => if strcmp0 k key then Some v else object_lookup ms' key
  end.

Definition json_object_object_get_ex (obj : json) (key : string) : option json :=
  match obj with
  | JObject ms => object_lookup ms key
  | _ => None
  end.

Definition get_json_string (obj : json) (key : string) : option string :=
  match json_object_object_get_ex obj key with
  | Some (JString s) => Some s
  | _ => None
  end.

Definition get_json_bool (obj : json) (key : string) : bool :=
  match json_object_object_get_ex obj key with
  | Some (JBool b) => b
  | _ => false
  end.

(** [if (src) safe_strcpy(dest, src, dest_size);] with [old] in [dest]. *)
Definition copy_if (src : option string) (dest_size : nat) (old : string) : string :=
  match src with
  | Some s => safe_strcpy (Some s) dest_size
  | None => old
  end.

(** The [json_object_object_foreach] over the exits of a location; [acc] is
    [location->exits] up to [exits_count]. *)
Fixpoint parse_exits_loop (ms : list (string * json)) (acc : list Exit) : list Exit :=
  match ms with
  | [] => acc
  | (dir, target_obj) :: ms' =>
      if MAX_EXITS <=? length acc then acc
      else
        match target_obj with
        | JString s =>
            parse_exits_loop ms'
              (acc ++ [{| direction := safe_strcpy (Some dir) 32;
                          target_location := safe_strcpy (Some s) 64 |}])
        | _ => parse_exits_loop ms' acc
        end
  end.

(** The [for] loops over an array of ids (the items of a location, the
    inventory of the player); [cap] is the size of the destination array. *)
Fixpoint parse_ids_loop (cap : nat) (els : list json) (acc : list string) : list string :=
  match els with
  | [] => acc
  | el :: els' =>
      if cap <=? length acc then acc
      else
        match el with
        | JString s => parse_ids_loop cap els' (acc ++ [safe_strcpy (Some s) 64])
        | _ => parse_ids_loop cap els' acc
        end
  end.

Definition parse_location (location_json : json) (location : Location)
    (location_id : string) : bool * Location :=
  match location_json with
  | JNull => (false, location)
  | _ =>
      (true,
       {| loc_id := safe_strcpy (Some location_id) 64;
          loc_title :=
            copy_if (get_json_string location_json "title") MAX_STRING_LENGTH
              (loc_title location);
          loc_description :=
            copy_if (get_json_string location_json "description")
              MAX_DESCRIPTION_LENGTH (loc_description location);
          image_path :=
            copy_if (get_json_string location_json "image") MAX_STRING_LENGTH
              (image_path location);
          first_visit_text :=
            copy_if (get_json_string location_json "first_visit_text")
              MAX_DESCRIPTION_LENGTH (first_visit_text location);
          visited := get_json_bool location_json "visited";
          exits :=
            match json_object_object_get_ex location_json "exits" with
            | Some (JObject ms) => parse_exits_loop ms []
            | _ => exits location
            end;
          items :=
            match json_object_object_get_ex location_json "items" with
            | Some (JArray els) => parse_ids_loop MAX_ITEMS els []
            | _ => items location
            end;
          flags_required := flags_required location;
          flags_set := flags_set location |})
  end.

Definition parse_inventory_item (item_json : json) (item : InventoryItem)
    (id : string) : bool * InventoryItem :=
  match item_json with
  | JNull => (false, item)
  | _ =>
      (true,
       {| item_id := safe_strcpy (Some id) 64;
          name := copy_if (get_json_string item_json "name") MAX_STRING_LENGTH (name item);
          item_description :=
            copy_if (get_json_string item_json "description")
              MAX_DESCRIPTION_LENGTH (item_description item);
          takeable := get_json_bool item_json "takeable";
          useable := get_json_bool item_json "useable";
          use_text :=
            copy_if (get_json_string item_json "use_text") MAX_DESCRIPTION_LENGTH
              (use_text item) |})
  end.

(** The [json_object_object_foreach] over the locations; each location is
    parsed into the next free slot, which [calloc] left zeroed. *)
Fixpoint parse_locations_loop (ms : list (string * json)) (acc : list Location)
    : list Location :=
  match ms with
  | [] => acc
  | (location_id, location_obj) :: ms' =>
      if MAX_LOCATIONS <=? length acc then acc
      else
        match parse_location location_obj zero_Location location_id with
        | (true, l) => parse_locations_loop ms' (acc ++ [l])
        | (false, _) => parse_locations_loop ms' acc
        end
  end.

Fixpoint parse_inventory_items_loop (ms : list (string * json))
    (acc : list InventoryItem) : list InventoryItem :=
  match ms with
  | [] => acc
  | (id, item_obj) :: ms' =>
      if MAX_INVENTORY_ITEMS <=? length acc then acc
      else
        match parse_inventory_item item_obj zero_InventoryItem id with
        | (true, it) => parse_inventory_items_loop ms' (acc ++ [it])
        | (false, _) => parse_inventory_items_loop ms' acc
        end
  end.

(** The blocks of [load_game], in the order of the source; [game] is the
    zeroed state that [calloc] returned. *)

(** "Parse metadata". *)
Definition load_meta (doc : json) (game : GameState) : GameMeta :=
  match json_object_object_get_ex doc "meta" with
  | Some m =>
      {| meta_title :=
           copy_if (get_json_string m "title") MAX_STRING_LENGTH
             (meta_title (meta game));
         author :=
           copy_if (get_json_string m "author") MAX_STRING_LENGTH (author (meta game));
         meta_description :=
           copy_if (get_json_string m "description") MAX_DESCRIPTION_LENGTH
             (meta_description (meta game));
         version := copy_if (get_json_string m "version") 32 (version (meta game)) |}
  | None => meta game
  end.

(** "Parse start location". *)
Definition load_start_location (doc : json) (game : GameState) : string :=
  copy_if (get_json_string doc "start_location") 64 (start_location game).

(** "Parse locations". *)
Definition load_locations (doc : json) (game : GameState) : list Location :=
  match json_object_object_get_ex doc "locations" with
  | Some (JObject ms) => parse_locations_loop ms []
  | _ => locations game
  end.

(** "Parse inventory items". *)
Definition load_inventory_items (doc : json) (game : GameState) : list InventoryItem :=
  match json_object_object_get_ex doc "inventory_items" with
  | Some (JObject ms) => parse_inventory_items_loop ms []
  | _ => inventory_items game
  end.

(** "Parse player data"; [start] is [game->start_location] as the block
    before has left it. *)
Definition load_player (doc : json) (start : string) (game : GameState) : Player :=
  match json_object_object_get_ex doc "player" with
  | Some p =>
      {| current_location :=
           match get_json_string p "current_location" with
           | Some c => safe_strcpy (Some c) 64
           | None => safe_strcpy (Some start) 64
           end;
         inventory :=
           match json_object_object_get_ex p "inventory" with
           | Some (JArray els) => parse_ids_loop MAX_INVENTORY_ITEMS els []
           | _ => inventory (player game)
           end;
         flags := flags (player game) |}
  | None => set_current_location (safe_strcpy (Some start) 64) (player game)
  end.

Definition load_document (doc : json) : GameState :=
  let game := zero_GameState in
  {| meta := load_meta doc game;
     start_location := load_start_location doc game;
     locations := load_locations doc game;
     inventory_items := load_inventory_items doc game;
     game_flags := game_flags game;
     player := load_player doc (load_start_location doc game) game |}.

(** json-c represents the JSON value null by the NULL pointer. *)
Definition is_null (j : json) : bool :=
  match j with JNull => true | _ => false end.

(** [load_game], from the result of [json_tokener_parse] on the content of
    the file: [None] when the text is rejected.  The result [None] is the
    NULL return. *)
Definition load_game (parsed : option json) : option GameState :=
  match parsed with
  | None => None
  | Some doc => if is_null doc then None else Some (load_document doc)
  end.

(** *** The legacy loader, on cJSON *)

Module Legacy.

(** [cJSON_GetObjectItem(object, name)]: the first child whose name equals
    [name] up to letter case, or NULL.  Only the members of an object carry a
    name. *)
Fixpoint get_object_item (ms : list (string * json)) (key : string) : option json :=
  match ms with
  | [] => None
  | (k, v) :: ms' => if strcasecmp0 key k then Some v else get_object_item ms' key
  end.

Definition cJSON_GetObjectItem (object : json) (key : string) : option json :=
  match object with
  | JObject ms => get_object_item ms key
  | _ => None
  end.

Definition cJSON_IsString (item : json) : bool :=
  match item with JString _ => true | _ => false end.

Definition cJSON_IsBool (item : json) : bool :=
  match item with JBool _ => true | _ => false end.

Definition cJSON_IsTrue (item : json) : bool :=
  match item with JBool b => b | _ => false end.

(** [item->valuestring]: NULL unless the item is a string. *)
Definition valuestring (item : json) : option string :=
  match item with JString s => Some s | _ => None end.

(** [if (x && cJSON_IsString(x)) safe_strcpy(dest, x->valuestring, n);] *)
Definition copy_if_string (x : option json) (dest_size : nat) (old : string) : string :=
  match x with
  | Some item =>
      if cJSON_IsString item then safe_strcpy (valuestring item) dest_size else old
  | None => old
  end.

(** [if (x && cJSON_IsBool(x)) dest = cJSON_IsTrue(x);] *)
Definition assign_if_bool (x : option json) (old : bool) : bool :=
  match x with
  | Some item => if cJSON_IsBool item then cJSON_IsTrue item else old
  | None => old
  end.

(** The [cJSON_ArrayForEach] over the exits: the value of a member is copied
    through [valuestring] whatever its type. *)
Fixpoint parse_exits_loop (ms : list (string * json)) (acc : list Exit) : list Exit :=
  match ms with
  | [] => acc
  | (k, exit) :: ms' =>
      if MAX_EXITS <=? length acc then acc
      else
        parse_exits_loop ms'
          (acc ++ [{| direction := safe_strcpy (Some k) 32;
                      target_location := safe_strcpy (valuestring exit) 64 |}])
  end.

Fixpoint parse_ids_loop (cap : nat) (els : list json) (acc : list string) : list string :=
  match els with
  | [] => acc
  | item :: els' =>
      if cap <=? length acc then acc
      else if cJSON_IsString item then
        parse_ids_loop cap els' (acc ++ [safe_strcpy (valuestring item) 64])
      else parse_ids_loop cap els' acc
  end.

Definition parse_location (location_json : json) (location : Location)
    (location_id : string) : bool * Location :=
  (true,
   {| loc_id := safe_strcpy (Some location_id) 64;
      loc_title :=
        copy_if_string (cJSON_GetObjectItem location_json "title")
          MAX_STRING_LENGTH (loc_title location);
      loc_description :=
        copy_if_string (cJSON_GetObjectItem location_json "description")
          MAX_DESCRIPTION_LENGTH (loc_description location);
      image_path :=
        copy_if_string (cJSON_GetObjectItem location_json "image")
          MAX_STRING_LENGTH (image_path location);
      first_visit_text :=
        copy_if_string (cJSON_GetObjectItem location_json "first_visit_text")
          MAX_DESCRIPTION_LENGTH (first_visit_text location);
      visited :=
        assign_if_bool (cJSON_GetObjectItem location_json "visited") (visited location);
      exits :=
        match cJSON_GetObjectItem location_json "exits" with
        | Some (JObject ms) => parse_exits_loop ms []
        | _ => exits location
        end;
      items :=
        match cJSON_GetObjectItem location_json "items" with
        | Some (JArray els) => parse_ids_loop MAX_ITEMS els []
        | _ => items location
        end;
      flags_required := flags_required location;
      flags_set := flags_set location |}).

Definition parse_inventory_item (item_json : json) (item : InventoryItem)
    (id : string) : bool * InventoryItem :=
  (true,
   {| item_id := safe_strcpy (Some id) 64;
      name :=
        copy_if_string (cJSON_GetObjectItem item_json "name") MAX_STRING_LENGTH
          (name item);
      item_description :=
        copy_if_string (cJSON_GetObjectItem item_json "description")
          MAX_DESCRIPTION_LENGTH (item_description item);
      takeable := assign_if_bool (cJSON_GetObjectItem item_json "takeable") (takeable item);
      useable := assign_if_bool (cJSON_GetObjectItem item_json "useable") (useable item);
      use_text :=
        copy_if_string (cJSON_GetObjectItem item_json "use_text")
          MAX_DESCRIPTION_LENGTH (use_text item) |}).

Fixpoint parse_locations_loop (ms : list (string * json)) (acc : list Location)
    : list Location :=
  match ms with
  | [] => acc
  | (k, location) :: ms' =>
      if MAX_LOCATIONS <=? length acc then acc
      else
        match parse_location location zero_Location k with
        | (true, l) => parse_locations_loop ms' (acc ++ [l])
        | (false, _) => parse_locations_loop ms' acc
        end
  end.

Fixpoint parse_inventory_items_loop (ms : list (string * json))
    (acc : list InventoryItem) : list InventoryItem :=
  match ms with
  | [] => acc
  | (k, item) :: ms' =>
      if MAX_INVENTORY_ITEMS <=? length acc then acc
      else
        match parse_inventory_item item zero_InventoryItem k with
        | (true, it) => parse_inventory_items_loop ms' (acc ++ [it])
        | (false, _) => parse_inventory_items_loop ms' acc
        end
  end.

Definition load_meta (doc : json) (game : GameState) : GameMeta :=
  match cJSON_GetObjectItem doc "meta" with
  | Some m =>
      {| meta_title :=
           copy_if_string (cJSON_GetObjectItem m "title") MAX_STRING_LENGTH
             (meta_title (meta game));
         author :=
           copy_if_string (cJSON_GetObjectItem m "author") MAX_STRING_LENGTH
             (author (meta game));
         meta_description :=
           copy_if_string (cJSON_GetObjectItem m "description")
             MAX_DESCRIPTION_LENGTH (meta_description (meta game));
         version :=
           copy_if_string (cJSON_GetObjectItem m "version") 32 (version (meta game)) |}
  | None => meta game
  end.

Definition load_start_location (doc : json) (game : GameState) : string :=
  copy_if_string (cJSON_GetObjectItem doc "start_location") 64 (start_location game).

Definition load_locations (doc : json) (game : GameState) : list Location :=
  match cJSON_GetObjectItem doc "locations" with
  | Some (JObject ms) => parse_locations_loop ms []
  | _ => locations game
  end.

Definition load_inventory_items (doc : json) (game : GameState) : list InventoryItem :=
  match cJSON_GetObjectItem doc "inventory_items" with
  | Some (JObject ms) => parse_inventory_items_loop ms []
  | _ => inventory_items game
  end.

Definition load_player (doc : json) (start : string) (game : GameState) : Player :=
  match cJSON_GetObjectItem doc "player" with
  | Some p =>
      {| current_location :=
           match cJSON_GetObjectItem p "current_location" with
           | Some (JString c) => safe_strcpy (Some c) 64
           | _ => safe_strcpy (Some start) 64
           end;
         inventory :=
           match cJSON_GetObjectItem p "inventory" with
           | Some (JArray els) => parse_ids_loop MAX_INVENTORY_ITEMS els []
           | _ => inventory (player game)
           end;
         flags := flags (player game) |}
  | None => set_current_location (safe_strcpy (Some start) 64) (player game)
  end.

Definition load_document (doc : json) : GameState :=
  let game := zero_GameState in
  {| meta := load_meta doc game;
     start_location := load_start_location doc game;
     locations := load_locations doc game;
     inventory_items := load_inventory_items doc game;
     game_flags := game_flags game;
     player := load_player doc (load_start_location doc game) game |}.

(** [load_game], from the result of [cJSON_Parse]: [None] when the text is
    rejected.  The JSON value null is an item like any other. *)
Definition load_game (parsed : option json) : option GameState :=
  match parsed with
  | None => None
  | Some doc => Some (load_document doc)
  end.

End Legacy.

(** ** engine/main.c: the command handler *)

Section Renderer.

(** SDL is outside the engine: its surfaces and textures are opaque, and the
    two calls that produce them, with the error texts they report, are
    parameters. *)
Variables Surface Texture : Type.
Variable IMG_Load : string → option Surface.
Variable SDL_CreateTextureFromSurface : Surface → option Texture.
Variables IMG_GetError SDL_GetError : string.

(** The fields of [GameRenderer] that [handle_input] reads or writes. *)
Record GameRenderer := {
  location_image : option Texture;
  running : bool
}.

(** The globals of main.c and the standard output. *)
Record Process := {
  game_state : option GameState;
  renderer : GameRenderer;
  stdout : list string
}.

(** [load_location_image]: the texture, or NULL, and the lines printed. *)
Definition load_location_image (path : string) : option Texture * list string :=
  if bool_decide (String.length path = 0) then (None, [])
  else
    match IMG_Load path with
    | None =>
        (None,
         ["Unable to load image " +:+ path +:+ "! SDL_image Error: " +:+ IMG_GetError])
    | Some surface =>
        match SDL_CreateTextureFromSurface surface with
        | None =>
            (None,
             ["Unable to create texture from " +:+ path +:+ "! SDL Error: "
                +:+ SDL_GetError])
        | Some texture => (Some texture, [])
        end
    end.

(** The direction of a go or move command: [strchr(input, ' ') + 1].  The
    branch is entered only when the input holds a space. *)
Definition direction_of (input : string) : string :=
  match strchr input " "%char with
  | Some s => str_next s
  | None => ""
  end.

Definition handle_input (input : string) (p : Process) : Process :=
  match game_state p with
  | None => p
  | Some game =>
      if strncmp0 input "go " 3 || strncmp0 input "move " 5 then
        let '(ok, game', out) := move_player game (direction_of input) in
        if ok then
          let '(image, out') :=
            match get_current_location game' with
            | Some (_, new_location) =>
                if negb (bool_decide (image_path new_location = "")) then
                  load_location_image (image_path new_location)
                else (None, [])
            | None => (None, [])
            end in
          {| game_state := Some game';
             renderer := {| location_image := image; running := running (renderer p) |};
             stdout := stdout p ++ out ++ out' |}
        else
          {| game_state := Some game'; renderer := renderer p;
             stdout := stdout p ++ out |}
      else if strcmp0 input "look" || strcmp0 input "l" then p
      else if strcmp0 input "inventory" || strcmp0 input "i" then
        {| game_state := game_state p; renderer := renderer p;
           stdout := stdout p ++ ["Inventory system not yet implemented."] |}
      else if strcmp0 input "help" then
        {| game_state := game_state p; renderer := renderer p;
           stdout :=
             stdout p
               ++ ["Available commands: go <direction>, look, inventory, help, quit"] |}
      else if strcmp0 input "quit" || strcmp0 input "exit" then
        {| game_state := game_state p;
           renderer :=
             {| location_image := location_image (renderer p); running := false |};
           stdout := stdout p |}
      else
        {| game_state := game_state p; renderer := renderer p;
           stdout := stdout p ++ ["Unknown command: " +:+ input] |}
  end.

End Renderer.

(** ** Sample worlds *)

Definition room (id : string) (es : list Exit) : Location :=
  {| loc_id := id; loc_title := id; loc_description := ""; image_path := "";
     first_visit_text := ""; visited := false; exits := es; items := [];
     flags_required := []; flags_set := [] |}.

(** Hall has two exits called north, to the library and then to the cellar,
    and an exit east whose target is no location. *)
Definition hall : Location :=
  room "hall"
    [ {| direction := "north"; target_location := "library" |};
      {| direction := "north"; target_location := "cellar" |};
      {| direction := "east"; target_location := "nowhere" |} ].

Definition sample_world : GameState :=
  {| meta := zero_GameMeta; start_location := "hall";
     locations := [hall; room "library" []; room "cellar" []];
     inventory_items := []; game_flags := [("door_open", true)];
     player := {| inventory := ["lamp"]; current_location := "hall"; flags := [] |} |}.

(** A player table filled to [MAX_FLAGS] with the names f1 ... f128. *)
Definition full_flags : list (string * bool) :=
  (λ i, ("f" +:+ pretty i, false)) <$> seq 1 MAX_FLAGS.

Definition full_flags_world : GameState :=
  set_player (set_flags full_flags (player sample_world)) sample_world.

(** An item id of 64 bytes, one more than an inventory slot holds. *)
Definition long_id : string :=
  "aaaaaaaaaaaaaaaaaaaaaaaaaaaaaaaaaaaaaaaaaaaaaaaaaaaaaaaaaaaaaaaa".

(** An inventory filled to [MAX_INVENTORY_ITEMS] with the ids 1 ... 64. *)
Definition full_inventory_world : GameState :=
  set_player
    (set_inventory (pretty <$> seq 1 MAX_INVENTORY_ITEMS) (player sample_world))
    sample_world.

(** A document whose only location carries the field visited, set to true. *)
Definition visited_doc : json :=
  JObject
    [ ("start_location", JString "cave");
      ("locations",
       JObject [ ("cave", JObject [ ("title", JString "Cave"); ("visited", JBool true) ]) ]) ].

(** ** Documents that follow the schema *)

(** The two predicates below are not code of the engine: they say, in the
    words of the world document format, when a document is well typed, and
    when its objects spell their keys as the format does. *)

Definition is_string (j : json) : bool := match j with JString _ => true | _ => false end.
Definition is_bool (j : json) : bool := match j with JBool _ => true | _ => false end.
Definition is_object (j : json) : bool := match j with JObject _ => true | _ => false end.

Definition members_of (j : json) : list (string * json) :=
  match j with JObject ms => ms | _ => [] end.

(** The field [key] of [obj], when present, satisfies [ok]. *)
Definition field_ok (obj : json) (key : string) (ok : json → bool) : bool :=
  match json_object_object_get_ex obj key with
  | Some v => ok v
  | None => true
  end.

Definition object_of (ok : json → bool) (j : json) : bool :=
  match j with JObject ms => forallb (λ m, ok m.2) ms | _ => false end.

Definition array_of (ok : json → bool) (j : json) : bool :=
  match j with JArray els => forallb ok els | _ => false end.

Definition well_typed_meta (m : json) : bool :=
  is_object m && field_ok m "title" is_string && field_ok m "author" is_string
  && field_ok m "description" is_string && field_ok m "version" is_string.

Definition well_typed_location (l : json) : bool :=
  is_object l && field_ok l "title" is_string && field_ok l "description" is_string
  && field_ok l "image" is_string && field_ok l "first_visit_text" is_string
  && field_ok l "visited" is_bool && field_ok l "exits" (object_of is_string)
  && field_ok l "items" (array_of is_string).

Definition well_typed_item (it : json) : bool :=
  is_object it && field_ok it "name" is_string && field_ok it "description" is_string
  && field_ok it "takeable" is_bool && field_ok it "useable" is_bool
  && field_ok it "use_text" is_string.

Definition well_typed_player (p : json) : bool :=
  is_object p && field_ok p "current_location" is_string
  && field_ok p "inventory" (array_of is_string).

Definition well_typed_document (doc : json) : bool :=
  is_object doc && field_ok doc "meta" well_typed_meta
  && field_ok doc "start_location" is_string
  && field_ok doc "locations" (object_of well_typed_location)
  && field_ok doc "inventory_items" (object_of well_typed_item)
  && field_ok doc "player" well_typed_player.

(** The names of the members of an object are distinct, and a name that
    equals one of the keys [ks] up to letter case is that key. *)
Definition plain_keys (ks : list string) (j : json) : bool :=
  bool_decide (NoDup (members_of j).*1)
  && forallb (λ m, forallb (λ k, implb (strcasecmp0 k m.1) (strcmp0 m.1 k)) ks)
       (members_of j).

Definition location_keys : list string :=
  ["title"; "description"; "image"; "first_visit_text"; "visited"; "exits"; "items"].

Definition plain_location (l : json) : bool :=
  plain_keys location_keys l && field_ok l "exits" (plain_keys []).

Definition plain_document (doc : json) : bool :=
  plain_keys ["meta"; "start_location"; "locations"; "inventory_items"; "player"] doc
  && field_ok doc "meta" (plain_keys ["title"; "author"; "description"; "version"])
  && field_ok doc "locations"
       (λ ls, plain_keys [] ls && forallb (λ m, plain_location m.2) (members_of ls))
  && field_ok doc "inventory_items"
       (λ its,
          plain_keys [] its
          && forallb
               (λ m, plain_keys ["name"; "description"; "takeable"; "useable"; "use_text"] m.2)
               (members_of its))
  && field_ok doc "player" (plain_keys ["current_location"; "inventory"]).

(** The game of the README. *)
Definition readme_doc : json :=
  JObject
    [ ("meta",
       JObject [ ("title", JString "Your Adventure"); ("author", JString "Your Name");
                 ("description", JString "Game description") ]);
      ("start_location", JString "start");
      ("locations",
       JObject
         [ ("start",
            JObject [ ("title", JString "Starting Room");
                      ("description", JString "You are in a room.");
                      ("image", JString "start.png");
                      ("exits", JObject [ ("north", JString "next_room") ]) ]) ]);
      ("inventory_items", JObject []);
      ("game_flags", JObject []);
      ("player",
       JObject [ ("inventory", JArray []); ("current_location", JString "start");
                 ("flags", JObject []) ]) ].

(** A document with no player block. *)
Definition no_player_doc : json :=
  JObject
    [ ("start_location", JString "start");
      ("locations", JObject [ ("start", JObject [ ("title", JString "Starting Room") ]) ]) ].

(** A document whose meta block and player block are present and empty. *)
Definition empty_blocks_doc : json :=
  JObject
    [ ("meta", JObject []); ("start_location", JString "start");
      ("player", JObject []) ].

(** A document with two locations whose keys, of 64 bytes each, share their
    first 63 bytes. *)
Definition colliding_doc : json :=
  JObject
    [ ("locations",
       JObject [ (long_id, JObject [ ("title", JString "first") ]);
                 (str_take 63 long_id +:+ "b", JObject [ ("title", JString "second") ]) ]) ].

(** A document whose location spells the key of its title with a capital. *)
Definition capital_key_doc : json :=
  JObject [ ("locations", JObject [ ("cave", JObject [ ("Title", JString "Cave") ]) ]) ].

(** The scenario of two rooms: start, with an exit north to room2, and room2,
    with no exit. *)
Definition two_rooms_doc : json :=
  JObject
    [ ("start_location", JString "start");
      ("locations",
       JObject
         [ ("start", JObject [ ("exits", JObject [ ("north", JString "room2") ]) ]);
           ("room2", JObject []) ]) ].

(** A process that has loaded [doc], with SDL loading no image at all. *)
Definition boot (doc : json) : Process unit :=
  {| game_state := load_game (Some doc);
     renderer := {| location_image := None; running := true |};
     stdout := [] |}.

Definition submit (input : string) (p : Process unit) : Process unit :=
  handle_input unit unit (λ _, None) (λ _, None) "" "" input p.

(** ** engine/main.c: the input line and the exits line *)

Definition MAX_INPUT_LENGTH : nat := 256.

(** [strcat(dest, src)] into an array of [dest_size] bytes: the new contents
    of [dest], or [None] when the result with its terminating zero does not
    fit and the call writes past the array. *)
Definition strcat (dest_size : nat) (dest src : string) : option string :=
  if String.length dest + String.length src <? dest_size then Some (dest +:+ src)
  else None.

(** [buf[i] = 0] on an array of [size] bytes holding the string [buf]: the
    string is cut at [i]; [None] when [i] is outside the array. *)
Definition put_nul (size : nat) (buf : string) (i : nat) : option string :=
  if i <? size then Some (str_take i buf) else None.

(** The block of [render_game] that builds the line of exits in
    [char exits_text[256]]; [text] is the buffer and [i] the loop index. *)
Fixpoint exits_text_loop (es : list Exit) (i : nat) (text : string) : option string :=
  match es with
  | [] => Some text
  | e :: es' =>
      text1 ← (if 0 <? i then strcat 256 text ", " else Some text);
      text2 ← strcat 256 text1 (direction e);
      exits_text_loop es' (S i) text2
  end.

(** The line shown for a location; [Some ""] stands for no line at all. *)
Definition exits_text (l : Location) : option string :=
  if 0 <? length (exits l) then exits_text_loop (exits l) 0 "Exits: " else Some "".

(** The events the main loop looks at. *)
Inductive Keysym : Type := SDLK_RETURN | SDLK_BACKSPACE | SDLK_other.

Inductive Event : Type :=
  | SDL_QUIT
  | SDL_KEYDOWN (sym : Keysym)
  | SDL_TEXTINPUT (text : string)
  | SDL_other.

Section MainLoop.

Variables Surface Texture : Type.
Variable IMG_Load : string → option Surface.
Variable SDL_CreateTextureFromSurface : Surface → option Texture.
Variables IMG_GetError SDL_GetError : string.

(** The input fields of [GameRenderer]: [input_buffer[MAX_INPUT_LENGTH]] as
    the string it holds, and [input_length]. *)
Record InputLine := {
  input_buffer : string;
  input_length : nat
}.

(** The body of the [SDL_PollEvent] loop of [main] for one event; [None]
    when a write falls outside [input_buffer]. *)
Definition process_event (e : Event) (st : Process Texture * InputLine)
    : option (Process Texture * InputLine) :=
  let '(p, line) := st in
  match e with
  | SDL_QUIT =>
      Some ({| game_state := game_state _ p;
               renderer := {| location_image := location_image _ (renderer _ p);
                              running := false |};
               stdout := stdout _ p |}, line)
  | SDL_KEYDOWN SDLK_RETURN =>
      if 0 <? input_length line then
        buf ← put_nul MAX_INPUT_LENGTH (input_buffer line) (input_length line);
        Some (handle_input Surface Texture IMG_Load SDL_CreateTextureFromSurface
                IMG_GetError SDL_GetError buf p,
              {| input_buffer := ""; input_length := 0 |})
      else Some st
  | SDL_KEYDOWN SDLK_BACKSPACE =>
      if 0 <? input_length line then
        buf ← put_nul MAX_INPUT_LENGTH (input_buffer line) (input_length line - 1);
        Some (p, {| input_buffer := buf; input_length := input_length line - 1 |})
      else Some st
  | SDL_KEYDOWN SDLK_other => Some st
  | SDL_TEXTINPUT text =>
      if input_length line <? MAX_INPUT_LENGTH - 1 then
        buf ← strcat MAX_INPUT_LENGTH (input_buffer line) text;
        Some (p, {| input_buffer := buf;
                    input_length := input_length line + String.length text |})
      else Some st
  | SDL_other => Some st
  end.

(** The events of the queue, one after the other. *)
Fixpoint process_events (evs : list Event) (st : Process Texture * InputLine)
    : option (Process Texture * InputLine) :=
  match evs with
  | [] => Some st
  | e :: evs' => st' ← process_event e st; process_events evs' st'
  end.

End MainLoop.

(** The keystrokes that type a line, one byte per event. *)
Fixpoint typing (s : string) : list Event :=
  match s with
  | EmptyString => []
  | String c s' => SDL_TEXTINPUT (String c EmptyString) :: typing s'
  end.

(** ** What the loops of the loader read from a member *)

(** The exit made from a member of the exits object, if its value is a
    string. *)
Definition exit_of_member (m : string * json) : option Exit :=
  match m.2 with
  | JString s =>
      Some {| direction := safe_strcpy (Some m.1) 32;
              target_location := safe_strcpy (Some s) 64 |}
  | _ => None
  end.

(** The id made from an element of an array of ids, if it is a string. *)
Definition id_of_element (el : json) : option string :=
  match el with
  | JString s => Some (safe_strcpy (Some s) 64)
  | _ => None
  end.

(** * Properties *)

(** ** Strings *)

Lemma strcmp0_true (a b : string) : strcmp0 a b = true ↔ a = b.
Proof. unfold strcmp0. apply bool_decide_eq_true. Qed.

Lemma strcmp0_false (a b : string) : strcmp0 a b = false ↔ a ≠ b.
Proof. unfold strcmp0. apply bool_decide_eq_false. Qed.

Lemma strcmp0_refl (a : string) : strcmp0 a a = true.
Proof. by apply strcmp0_true. Qed.

Lemma str_take_all (n : nat) (s : string) : String.length s ≤ n → str_take n s = s.
Proof.
  revert n. induction s as [|c s IH]; intros [|n] Hn; simpl in *; try done; try lia.
  f_equal. apply IH. lia.
Qed.

Lemma str_take_length (n : nat) (s : string) : String.length (str_take n s) ≤ n.
Proof.
  revert s. induction n as [|n IH]; intros [|c s]; simpl; try lia.
  specialize (IH s). lia.
Qed.

Lemma str_take_idemp (n : nat) (s : string) : str_take n (str_take n s) = str_take n s.
Proof. apply str_take_all, str_take_length. Qed.

Lemma safe_strcpy_fits (n : nat) (s : string) : fits n s → safe_strcpy (Some s) n = s.
Proof. unfold fits, safe_strcpy. intros H. apply str_take_all. lia. Qed.

Lemma fits_safe_strcpy (n : nat) (src : option string) : 0 < n → fits n (safe_strcpy src n).
Proof.
  unfold fits, safe_strcpy. intros Hn. destruct src as [s|]; simpl; [|lia].
  pose proof (str_take_length (n - 1) s). lia.
Qed.

(** ** Movement *)

Lemma move_player_loop_skip (game : GameState) (dir : string) (pre es : list Exit) :
  Forall (λ x, strcasecmp0 (direction x) dir = false) pre →
  move_player_loop game dir (pre ++ es) = move_player_loop game dir es.
Proof.
  induction 1 as [|x pre Hx _ IH]; simpl; [done|]. by rewrite Hx.
Qed.

Lemma move_player_loop_success (game : GameState) (dir : string) (es : list Exit) :
  ret_of (move_player_loop game dir es) = true →
  ∃ pre e post,
    es = pre ++ e :: post ∧
    Forall (λ x, strcasecmp0 (direction x) dir = false) pre ∧
    strcasecmp0 (direction e) dir = true.
Proof.
  induction es as [|x es IH]; simpl; [done|].
  destruct (strcasecmp0 (direction x) dir) eqn:Hx.
  - intros _. by exists [], x, es.
  - intros (pre & e & post & -> & Hpre & He)%IH.
    exists (x :: pre), e, post. split_and!; [done| |done]. by constructor.
Qed.

Lemma move_player_loop_failure (game : GameState) (dir : string) (es : list Exit) :
  ret_of (move_player_loop game dir es) = false →
  state_of (move_player_loop game dir es) = game.
Proof.
  induction es as [|x es IH]; simpl; [done|].
  destruct (strcasecmp0 (direction x) dir); [|done].
  by destruct (get_location_by_id game (target_location x)) as [[j t]|].
Qed.

Lemma wf_exit_of_current (game : GameState) (i : nat) (cur : Location) (e : Exit) :
  wf_GameState game → get_current_location game = Some (i, cur) →
  e ∈ exits cur → fits 64 (target_location e).
Proof.
  intros (_ & _ & _ & Hlocs & _) Hcur He.
  apply list_find_Some in Hcur as (Hi & _ & _).
  apply list_elem_of_lookup_2 in Hi.
  rewrite Forall_forall in Hlocs. destruct (Hlocs _ Hi) as (_&_&_&_&_&_&Hes&_).
  rewrite Forall_forall in Hes. by destruct (Hes _ He).
Qed.

(** C1. From a state whose current location resolves, [move_player] takes the
    first exit, in stored order, whose direction equals the requested one up
    to letter case: the move succeeds exactly when the target of that exit
    resolves, and then the current location of the player is that target. A
    successful move always comes from such an exit. *)
Theorem move_player_first_match (game : GameState) (dir : string)
    (i : nat) (cur : Location) :
  wf_GameState game →
  get_current_location game = Some (i, cur) →
  (∀ pre e post,
     exits cur = pre ++ e :: post →
     Forall (λ x, strcasecmp0 (direction x) dir = false) pre →
     strcasecmp0 (direction e) dir = true →
     (ret_of (move_player game dir) = true ↔
        is_Some (get_location_by_id game (target_location e))) ∧
     (ret_of (move_player game dir) = true →
        current_location (player (state_of (move_player game dir)))
          = target_location e)) ∧
  (ret_of (move_player game dir) = true →
   ∃ pre e post,
     exits cur = pre ++ e :: post ∧
     Forall (λ x, strcasecmp0 (direction x) dir = false) pre ∧
     strcasecmp0 (direction e) dir = true).
Proof.
  intros Hwf Hcur. unfold move_player. rewrite Hcur. split.
  - intros pre e post Hex Hpre He.
    assert (fits 64 (target_location e)) as Hfit.
    { eapply wf_exit_of_current; [done..|]. rewrite Hex. set_solver. }
    rewrite Hex, move_player_loop_skip by done. simpl. rewrite He.
    destruct (get_location_by_id game (target_location e)) as [[j t]|]; simpl.
    + split; [done|]. intros _. by apply safe_strcpy_fits.
    + split; [|done]. split; [done|]. by intros [? ?].
  - apply move_player_loop_success.
Qed.

Lemma sample_world_wf : wf_GameState sample_world.
Proof.
  unfold wf_GameState, wf_GameMeta, wf_Player, wf_flags, fits; simpl.
  split_and!; try (repeat constructor; simpl; lia).
Qed.

Lemma move_player_first_match_witness :
  ret_of (move_player sample_world "NORTH") = true ∧
  current_location (player (state_of (move_player sample_world "NORTH"))) = "library".
Proof.
  destruct (move_player_first_match sample_world "NORTH" 0 hall sample_world_wf eq_refl)
    as [H _].
  destruct (H [] {| direction := "north"; target_location := "library" |}
              [ {| direction := "north"; target_location := "cellar" |};
                {| direction := "east"; target_location := "nowhere" |} ]
              eq_refl (Forall_nil_2 _) eq_refl) as [H1 H2].
  assert (ret_of (move_player sample_world "NORTH") = true) as Hok.
  { apply H1. by eexists. }
  split; [exact Hok | exact (H2 Hok)].
Defined.

(** C2. A failed [move_player] leaves the whole game state as it was.  It
    fails when the target of the first matching exit is no location, and it
    fails when no exit matches. *)
Theorem move_player_failure_keeps_state (game : GameState) (dir : string) :
  (ret_of (move_player game dir) = false → state_of (move_player game dir) = game) ∧
  (∀ i cur pre e post,
     get_current_location game = Some (i, cur) →
     exits cur = pre ++ e :: post →
     Forall (λ x, strcasecmp0 (direction x) dir = false) pre →
     strcasecmp0 (direction e) dir = true →
     get_location_by_id game (target_location e) = None →
     ret_of (move_player game dir) = false ∧
     state_of (move_player game dir) = game) ∧
  (∀ i cur,
     get_current_location game = Some (i, cur) →
     Forall (λ x, strcasecmp0 (direction x) dir = false) (exits cur) →
     ret_of (move_player game dir) = false ∧
     state_of (move_player game dir) = game).
Proof.
  unfold move_player. split_and!.
  - destruct (get_current_location game) as [[i cur]|]; [|done].
    apply move_player_loop_failure.
  - intros i cur pre e post -> -> Hpre He Htgt.
    rewrite move_player_loop_skip by done. simpl. by rewrite He, Htgt.
  - intros i cur -> Hnone.
    rewrite <-(app_nil_r (exits cur)), move_player_loop_skip by done. done.
Qed.

Lemma move_player_failure_keeps_state_witness :
  (ret_of (move_player sample_world "East") = false ∧
   state_of (move_player sample_world "East") = sample_world) ∧
  (ret_of (move_player sample_world "up") = false ∧
   state_of (move_player sample_world "up") = sample_world).
Proof.
  destruct (move_player_failure_keeps_state sample_world "East") as (_ & H & _).
  destruct (move_player_failure_keeps_state sample_world "up") as (_ & _ & H').
  split.
  - apply (H 0 hall
             [ {| direction := "north"; target_location := "library" |};
               {| direction := "north"; target_location := "cellar" |} ]
             {| direction := "east"; target_location := "nowhere" |} []);
      try reflexivity.
    repeat constructor.
  - apply (H' 0 hall); [reflexivity|]. repeat constructor.
Defined.

(** ** Flags *)

Lemma find_flag_first (fs pre post : list (string * bool)) (n : string) (v : bool) :
  fs = pre ++ (n, v) :: post → n ∉ pre.*1 → find_flag fs n = Some v.
Proof.
  intros ->. induction pre as [|[m w] pre IH]; simpl; intros Hn.
  - by rewrite strcmp0_refl.
  - apply not_elem_of_cons in Hn as [Hne Hn].
    assert (strcmp0 m n = false) as -> by by apply strcmp0_false.
    by apply IH.
Qed.

Lemma find_flag_None (fs : list (string * bool)) (n : string) :
  find_flag fs n = None ↔ n ∉ fs.*1.
Proof.
  induction fs as [|[m w] fs IH]; simpl.
  - split; [set_solver|done].
  - destruct (strcmp0 m n) eqn:Hm.
    + apply strcmp0_true in Hm as ->. split; [done|set_solver].
    + apply strcmp0_false in Hm. rewrite IH. set_solver.
Qed.

(** C3. [get_flag] reads the player table first, the game table second, and
    answers false when neither holds the name; within a table the first entry
    of that name counts.  The state is returned as it was. *)
Theorem get_flag_precedence (game : GameState) (flag_name : string) :
  state_of (get_flag game flag_name) = game ∧
  (∀ pre v post,
     flags (player game) = pre ++ (flag_name, v) :: post →
     flag_name ∉ pre.*1 →
     ret_of (get_flag game flag_name) = v) ∧
  (∀ pre v post,
     flag_name ∉ (flags (player game)).*1 →
     game_flags game = pre ++ (flag_name, v) :: post →
     flag_name ∉ pre.*1 →
     ret_of (get_flag game flag_name) = v) ∧
  (flag_name ∉ (flags (player game)).*1 →
   flag_name ∉ (game_flags game).*1 →
   ret_of (get_flag game flag_name) = false).
Proof.
  unfold get_flag. split_and!.
  - destruct (find_flag (flags (player game)) flag_name); [done|].
    by destruct (find_flag (game_flags game) flag_name).
  - intros pre v post Hfs Hpre. by rewrite (find_flag_first _ _ _ _ _ Hfs Hpre).
  - intros pre v post Hp Hfs Hpre. apply find_flag_None in Hp as ->.
    by rewrite (find_flag_first _ _ _ _ _ Hfs Hpre).
  - intros Hp Hg. apply find_flag_None in Hp as ->. by apply find_flag_None in Hg as ->.
Qed.

Lemma get_flag_precedence_witness :
  ret_of (get_flag sample_world "door_open") = true ∧
  ret_of (get_flag sample_world "lamp_lit") = false.
Proof.
  destruct (get_flag_precedence sample_world "door_open") as (_ & _ & H & _).
  destruct (get_flag_precedence sample_world "lamp_lit") as (_ & _ & _ & H').
  split.
  - apply (H [] true []); [compute_done|reflexivity|compute_done].
  - apply H'; compute_done.
Defined.

Lemma update_flag_Some (fs : list (string * bool)) (n : string) (v : bool) :
  n ∈ fs.*1 →
  ∃ fs', update_flag fs n v = Some fs' ∧ fs'.*1 = fs.*1 ∧
         find_flag fs' n = Some v ∧
         ∀ m, m ≠ n → find_flag fs' m = find_flag fs m.
Proof.
  induction fs as [|[k w] fs IH]; simpl; [set_solver|]. intros Hin.
  destruct (strcmp0 k n) eqn:Hk.
  - apply strcmp0_true in Hk as ->. eexists. split_and!; [done|done|..]; simpl.
    + by rewrite strcmp0_refl.
    + intros m Hm. by assert (strcmp0 n m = false) as -> by by apply strcmp0_false.
  - apply strcmp0_false in Hk.
    destruct IH as (fs' & -> & Hnames & Hfind & Hother); [set_solver|].
    exists ((k, w) :: fs'). split_and!; [done|..].
    + rewrite !fmap_cons. by f_equal.
    + simpl. by assert (strcmp0 k n = false) as -> by by apply strcmp0_false.
    + intros m Hm. simpl. destruct (strcmp0 k m); [done|]. by apply Hother.
Qed.

Lemma update_flag_None (fs : list (string * bool)) (n : string) (v : bool) :
  update_flag fs n v = None ↔ n ∉ fs.*1.
Proof.
  induction fs as [|[k w] fs IH]; simpl.
  - split; [set_solver|done].
  - destruct (strcmp0 k n) eqn:Hk.
    + apply strcmp0_true in Hk as ->. split; [done|set_solver].
    + apply strcmp0_false in Hk. rewrite fmap_None, IH. set_solver.
Qed.

Lemma find_flag_snoc (fs : list (string * bool)) (n m : string) (v : bool) :
  find_flag (fs ++ [(n, v)]) m =
    match find_flag fs m with
    | Some w => Some w
    | None => if strcmp0 n m then Some v else None
    end.
Proof.
  induction fs as [|[k w] fs IH]; simpl; [done|]. by destruct (strcmp0 k m).
Qed.

(** C4, as the code has it.  [set_flag] overwrites the first entry of that
    name in the player table if there is one, else the first one in the game
    table; the names in both tables, hence the scope of every flag, stay as
    they were, and the other flags keep their values.  A name in neither
    table is appended to the player table, cut to the 63 bytes a slot holds,
    provided the table has fewer than [MAX_FLAGS] entries; a full table
    leaves the state as it was.  For a name that fits a slot, a flag found in
    a table before the call is found in the same table after it, and
    [get_flag] then reads the value written unless the name was new and the
    table full. *)
Theorem set_flag_scope (game : GameState) (flag_name : string) (value : bool) :
  let game' := state_of (set_flag game flag_name value) in
  (flag_name ∈ (flags (player game)).*1 →
     (flags (player game')).*1 = (flags (player game)).*1 ∧
     game_flags game' = game_flags game ∧
     find_flag (flags (player game')) flag_name = Some value ∧
     ∀ m, m ≠ flag_name →
       find_flag (flags (player game')) m = find_flag (flags (player game)) m) ∧
  (flag_name ∉ (flags (player game)).*1 → flag_name ∈ (game_flags game).*1 →
     flags (player game') = flags (player game) ∧
     (game_flags game').*1 = (game_flags game).*1 ∧
     find_flag (game_flags game') flag_name = Some value ∧
     ∀ m, m ≠ flag_name →
       find_flag (game_flags game') m = find_flag (game_flags game) m) ∧
  (flag_name ∉ (flags (player game)).*1 → flag_name ∉ (game_flags game).*1 →
     (length (flags (player game)) < MAX_FLAGS →
        flags (player game')
          = flags (player game) ++ [(safe_strcpy (Some flag_name) 64, value)] ∧
        game_flags game' = game_flags game) ∧
     (MAX_FLAGS ≤ length (flags (player game)) → game' = game)) ∧
  (fits 64 flag_name →
     (∀ m, m ∈ (flags (player game)).*1 → m ∈ (flags (player game')).*1) ∧
     (∀ m, m ∉ (flags (player game)).*1 → m ∈ (game_flags game).*1 →
        (m ∉ (flags (player game')).*1) ∧ m ∈ (game_flags game').*1) ∧
     ((flag_name ∈ (flags (player game)).*1) ∨ (flag_name ∈ (game_flags game).*1) ∨
        length (flags (player game)) < MAX_FLAGS →
      ret_of (get_flag game' flag_name) = value)).
Proof.
  intros game'.
  assert (flag_name ∈ (flags (player game)).*1 →
     (flags (player game')).*1 = (flags (player game)).*1 ∧
     game_flags game' = game_flags game ∧
     find_flag (flags (player game')) flag_name = Some value ∧
     ∀ m, m ≠ flag_name →
       find_flag (flags (player game')) m = find_flag (flags (player game)) m) as HP.
  { intros Hin. subst game'. unfold set_flag.
    destruct (update_flag_Some _ _ value Hin) as (fs' & -> & ? & ? & ?). done. }
  assert (flag_name ∉ (flags (player game)).*1 → flag_name ∈ (game_flags game).*1 →
     flags (player game') = flags (player game) ∧
     (game_flags game').*1 = (game_flags game).*1 ∧
     find_flag (game_flags game') flag_name = Some value ∧
     ∀ m, m ≠ flag_name →
       find_flag (game_flags game') m = find_flag (game_flags game) m) as HG.
  { intros Hp Hin. subst game'. unfold set_flag.
    apply (update_flag_None _ _ value) in Hp as ->.
    destruct (update_flag_Some _ _ value Hin) as (fs' & -> & ? & ? & ?). done. }
  assert (flag_name ∉ (flags (player game)).*1 → flag_name ∉ (game_flags game).*1 →
     (length (flags (player game)) < MAX_FLAGS →
        flags (player game')
          = flags (player game) ++ [(safe_strcpy (Some flag_name) 64, value)] ∧
        game_flags game' = game_flags game) ∧
     (MAX_FLAGS ≤ length (flags (player game)) → game' = game)) as HN.
  { intros Hp Hg. subst game'. unfold set_flag.
    apply (update_flag_None _ _ value) in Hp as ->.
    apply (update_flag_None _ _ value) in Hg as ->.
    split; intros Hlen.
    - by apply Nat.ltb_lt in Hlen as ->.
    - by apply Nat.ltb_ge in Hlen as ->. }
  split_and!; [done..|]. intros Hfit.
  destruct (decide (flag_name ∈ (flags (player game)).*1)) as [Hp|Hp];
    [|destruct (decide (flag_name ∈ (game_flags game).*1)) as [Hg|Hg]].
  - destruct (HP Hp) as (Hn & Hgf & Hfind & _). rewrite Hn, Hgf.
    split_and!; [done..|]. intros _. unfold get_flag. by rewrite Hfind.
  - destruct (HG Hp Hg) as (Hpf & Hn & Hfind & _). rewrite Hpf, Hn.
    split_and!; [done..|]. intros _. unfold get_flag. rewrite Hpf.
    apply find_flag_None in Hp as ->. by rewrite Hfind.
  - destruct (HN Hp Hg) as [Hlt Hge].
    destruct (decide (length (flags (player game)) < MAX_FLAGS)) as [Hlen|Hlen].
    + destruct (Hlt Hlen) as [Hpf Hgf]. rewrite Hpf, Hgf, safe_strcpy_fits by done.
      rewrite fmap_app. simpl. split_and!.
      * intros m Hm. set_solver.
      * intros m Hm Hmg. split; [|done]. set_solver.
      * intros _. unfold get_flag. rewrite Hpf, safe_strcpy_fits by done.
        rewrite find_flag_snoc. apply find_flag_None in Hp as ->.
        by rewrite strcmp0_refl.
    + rewrite Hge by lia. split_and!; [done..|]. intros [?|[?|?]]; done.
Qed.

Lemma set_flag_scope_witness :
  flags (player (state_of (set_flag sample_world "door_open" false))) = [] ∧
  ret_of (get_flag (state_of (set_flag sample_world "door_open" false)) "door_open")
    = false.
Proof.
  destruct (set_flag_scope sample_world "door_open" false) as (_ & H & _ & H').
  split.
  - apply H; compute_done.
  - apply H'; [unfold fits; simpl; lia|]. right. left. compute_done.
Defined.

(** C4, the claim as written fails: with the player table full, a flag that
    is in neither table is not inserted, and reads false after being set to
    true. *)
Lemma set_flag_full_table_inserts_nothing :
  ("lamp_lit" ∉ (flags (player full_flags_world)).*1) ∧
  ("lamp_lit" ∉ (game_flags full_flags_world).*1) ∧
  state_of (set_flag full_flags_world "lamp_lit" true) = full_flags_world ∧
  ret_of (get_flag (state_of (set_flag full_flags_world "lamp_lit" true)) "lamp_lit")
    = false.
Proof.
  split_and!.
  - apply find_flag_None. by vm_compute.
  - apply find_flag_None. by vm_compute.
  - by vm_compute.
  - by vm_compute.
Qed.

(** ** Inventory *)

Lemma has_item_loop_true (inv : list string) (id : string) :
  has_item_loop inv id = true ↔ id ∈ inv.
Proof.
  induction inv as [|x inv IH]; simpl.
  - split; [done|set_solver].
  - destruct (strcmp0 x id) eqn:Hx.
    + apply strcmp0_true in Hx as ->. split; [set_solver|done].
    + apply strcmp0_false in Hx. rewrite IH. set_solver.
Qed.

Lemma remove_item_loop_None (inv : list string) (id : string) :
  remove_item_loop inv id = None ↔ id ∉ inv.
Proof.
  induction inv as [|x inv IH]; simpl.
  - split; [set_solver|done].
  - destruct (strcmp0 x id) eqn:Hx.
    + apply strcmp0_true in Hx as ->. split; [done|set_solver].
    + apply strcmp0_false in Hx.
      destruct (remove_item_loop inv id) as [r|]; simpl.
      * split; [done|]. intros Hn. exfalso. destruct IH as [_ IH].
        discriminate IH. set_solver.
      * split; [|done]. intros _. destruct IH as [IH _]. set_solver.
Qed.

Lemma remove_item_loop_length (inv inv' : list string) (id : string) :
  remove_item_loop inv id = Some inv' → length inv = S (length inv').
Proof.
  revert inv'. induction inv as [|x inv IH]; simpl; intros inv'; [done|].
  destruct (strcmp0 x id).
  - by intros [= <-].
  - intros (r & Hr & ->)%fmap_Some. simpl. f_equal. by apply IH.
Qed.

(** C5, as the code has it.  Adding an id that is in the inventory fails and
    leaves the state as it was; removing an id that is not in the inventory
    fails and leaves the state as it was.  An id that fits an inventory slot
    (at most 63 bytes) is in the inventory once it has been added, so adding
    it a second time fails. *)
Theorem inventory_set_semantics (game : GameState) (id : string) :
  (id ∈ inventory (player game) →
     ret_of (add_item_to_inventory game id) = false ∧
     state_of (add_item_to_inventory game id) = game) ∧
  (id ∉ inventory (player game) →
     ret_of (remove_item_from_inventory game id) = false ∧
     state_of (remove_item_from_inventory game id) = game) ∧
  (fits 64 id → ret_of (add_item_to_inventory game id) = true →
     id ∈ inventory (player (state_of (add_item_to_inventory game id))) ∧
     ret_of (add_item_to_inventory (state_of (add_item_to_inventory game id)) id)
       = false ∧
     state_of (add_item_to_inventory (state_of (add_item_to_inventory game id)) id)
       = state_of (add_item_to_inventory game id)).
Proof.
  assert (∀ g, id ∈ inventory (player g) →
     ret_of (add_item_to_inventory g id) = false ∧
     state_of (add_item_to_inventory g id) = g) as Hdup.
  { intros g Hin. unfold add_item_to_inventory.
    destruct (MAX_INVENTORY_ITEMS <=? length (inventory (player g))); [done|].
    unfold has_item, ret_of at 1. simpl.
    by apply has_item_loop_true in Hin as ->. }
  split_and!; [by apply Hdup|..].
  - intros Hout. unfold remove_item_from_inventory.
    by apply remove_item_loop_None in Hout as ->.
  - intros Hfit Hok.
    assert (id ∈ inventory (player (state_of (add_item_to_inventory game id)))) as Hin.
    { revert Hok. unfold add_item_to_inventory.
      destruct (MAX_INVENTORY_ITEMS <=? length (inventory (player game))); [done|].
      destruct (ret_of (has_item game id)); [done|].
      intros _. simpl. rewrite safe_strcpy_fits by done. set_solver. }
    split; [done|]. by apply Hdup.
Qed.

Lemma inventory_set_semantics_witness :
  (ret_of (add_item_to_inventory sample_world "lamp") = false ∧
   state_of (add_item_to_inventory sample_world "lamp") = sample_world) ∧
  (ret_of (remove_item_from_inventory sample_world "key") = false ∧
   state_of (remove_item_from_inventory sample_world "key") = sample_world) ∧
  ret_of (add_item_to_inventory (state_of (add_item_to_inventory sample_world "key")) "key")
    = false.
Proof.
  destruct (inventory_set_semantics sample_world "lamp") as (H1 & _).
  destruct (inventory_set_semantics sample_world "key") as (_ & H2 & H3).
  split; [|split].
  - apply H1. compute_done.
  - apply H2. compute_done.
  - assert (fits 64 "key") as Hfit by (unfold fits; simpl; lia).
    destruct (H3 Hfit eq_refl) as (_ & Hr & _). exact Hr.
Defined.

(** C5, the claim as written fails: an id of 64 bytes is stored cut to 63
    bytes, the second call does not find it, and both additions succeed. *)
Lemma add_item_twice_succeeds_twice :
  ret_of (add_item_to_inventory sample_world long_id) = true ∧
  ret_of (add_item_to_inventory
            (state_of (add_item_to_inventory sample_world long_id)) long_id) = true.
Proof. split; by vm_compute. Qed.

Lemma parse_ids_loop_length (cap : nat) (els : list json) (acc : list string) :
  length acc ≤ cap → length (parse_ids_loop cap els acc) ≤ cap.
Proof.
  revert acc. induction els as [|el els IH]; simpl; intros acc Hacc; [done|].
  destruct (cap <=? length acc) eqn:Hcap; [done|].
  apply Nat.leb_gt in Hcap.
  destruct el; try by apply IH.
  apply IH. rewrite length_app. simpl. lia.
Qed.

Lemma legacy_parse_ids_loop_length (cap : nat) (els : list json) (acc : list string) :
  length acc ≤ cap → length (Legacy.parse_ids_loop cap els acc) ≤ cap.
Proof.
  revert acc. induction els as [|el els IH]; simpl; intros acc Hacc; [done|].
  destruct (cap <=? length acc) eqn:Hcap; [done|].
  apply Nat.leb_gt in Hcap.
  destruct (Legacy.cJSON_IsString el); [|by apply IH].
  apply IH. rewrite length_app. simpl. lia.
Qed.

Lemma move_player_loop_inventory (game : GameState) (dir : string) (es : list Exit) :
  inventory (player (state_of (move_player_loop game dir es)))
    = inventory (player game).
Proof.
  induction es as [|x es IH]; simpl; [done|].
  destruct (strcasecmp0 (direction x) dir); [|done].
  by destruct (get_location_by_id game (target_location x)) as [[j t]|].
Qed.

Lemma move_player_inventory (game : GameState) (dir : string) :
  inventory (player (state_of (move_player game dir))) = inventory (player game).
Proof.
  unfold move_player. destruct (get_current_location game) as [[i cur]|]; [|done].
  apply move_player_loop_inventory.
Qed.

Lemma set_flag_inventory (game : GameState) (n : string) (v : bool) :
  inventory (player (state_of (set_flag game n v))) = inventory (player game).
Proof.
  unfold set_flag.
  destruct (update_flag (flags (player game)) n v); [done|].
  destruct (update_flag (game_flags game) n v); [done|].
  by destruct (length (flags (player game)) <? MAX_FLAGS).
Qed.

Lemma get_flag_state (game : GameState) (n : string) : state_of (get_flag game n) = game.
Proof.
  unfold get_flag. destruct (find_flag (flags (player game)) n); [done|].
  by destruct (find_flag (game_flags game) n).
Qed.

Lemma load_player_inventory_length (doc : json) (start : string) :
  length (inventory (load_player doc start zero_GameState)) ≤ MAX_INVENTORY_ITEMS.
Proof.
  unfold load_player.
  destruct (json_object_object_get_ex doc "player") as [p|]; simpl;
    [|unfold MAX_INVENTORY_ITEMS; lia].
  destruct (json_object_object_get_ex p "inventory") as [[]|];
    simpl; try (unfold MAX_INVENTORY_ITEMS; lia).
  apply parse_ids_loop_length. simpl. lia.
Qed.

Lemma legacy_load_player_inventory_length (doc : json) (start : string) :
  length (inventory (Legacy.load_player doc start zero_GameState))
    ≤ MAX_INVENTORY_ITEMS.
Proof.
  unfold Legacy.load_player.
  destruct (Legacy.cJSON_GetObjectItem doc "player") as [p|]; simpl;
    [|unfold MAX_INVENTORY_ITEMS; lia].
  destruct (Legacy.cJSON_GetObjectItem p "inventory") as [[]|];
    simpl; try (unfold MAX_INVENTORY_ITEMS; lia).
  apply legacy_parse_ids_loop_length. simpl. lia.
Qed.

(** C6. The inventory never holds more than [MAX_INVENTORY_ITEMS] = 64 ids:
    both loaders produce such a state, every operation of the engine keeps
    the bound, and [add_item_to_inventory] on a full inventory fails and
    leaves the state as it was. *)
Theorem inventory_capacity_invariant :
  MAX_INVENTORY_ITEMS = 64 ∧
  (∀ parsed game,
     load_game parsed = Some game ∨ Legacy.load_game parsed = Some game →
     length (inventory (player game)) ≤ MAX_INVENTORY_ITEMS) ∧
  (∀ game,
     length (inventory (player game)) ≤ MAX_INVENTORY_ITEMS →
     (∀ id, length (inventory (player (state_of (add_item_to_inventory game id))))
              ≤ MAX_INVENTORY_ITEMS) ∧
     (∀ id, length (inventory (player (state_of (remove_item_from_inventory game id))))
              ≤ MAX_INVENTORY_ITEMS) ∧
     (∀ dir, length (inventory (player (state_of (move_player game dir))))
               ≤ MAX_INVENTORY_ITEMS) ∧
     (∀ n v, length (inventory (player (state_of (set_flag game n v))))
               ≤ MAX_INVENTORY_ITEMS) ∧
     (∀ n, length (inventory (player (state_of (get_flag game n))))
             ≤ MAX_INVENTORY_ITEMS) ∧
     (∀ id, length (inventory (player (state_of (has_item game id))))
              ≤ MAX_INVENTORY_ITEMS) ∧
     (∀ l, length (inventory (player (state_of (check_location_requirements game l))))
             ≤ MAX_INVENTORY_ITEMS)) ∧
  (∀ game id,
     MAX_INVENTORY_ITEMS ≤ length (inventory (player game)) →
     ret_of (add_item_to_inventory game id) = false ∧
     state_of (add_item_to_inventory game id) = game).
Proof.
  split_and!.
  - reflexivity.
  - intros parsed game [H|H].
    + unfold load_game in H. destruct parsed as [doc|]; [|done].
      destruct (is_null doc); [done|]. injection H as <-.
      apply load_player_inventory_length.
    + unfold Legacy.load_game in H. destruct parsed as [doc|]; [|done].
      injection H as <-. apply legacy_load_player_inventory_length.
  - intros game Hinv. split_and!.
    + intros id. unfold add_item_to_inventory.
      destruct (MAX_INVENTORY_ITEMS <=? length (inventory (player game))) eqn:Hfull;
        [done|].
      destruct (ret_of (has_item game id)); [done|]. simpl.
      apply Nat.leb_gt in Hfull. rewrite length_app. simpl. lia.
    + intros id. unfold remove_item_from_inventory.
      destruct (remove_item_loop (inventory (player game)) id) as [inv'|] eqn:Hrm;
        [|done].
      apply remove_item_loop_length in Hrm. simpl. lia.
    + intros dir. by rewrite move_player_inventory.
    + intros n v. by rewrite set_flag_inventory.
    + intros n. by rewrite get_flag_state.
    + done.
    + done.
  - intros game id Hfull. unfold add_item_to_inventory.
    by apply Nat.leb_le in Hfull as ->.
Qed.

Lemma inventory_capacity_invariant_witness :
  (ret_of (add_item_to_inventory full_inventory_world "key") = false ∧
   state_of (add_item_to_inventory full_inventory_world "key") = full_inventory_world) ∧
  length (inventory (player (state_of (add_item_to_inventory sample_world "key")))) ≤ 64.
Proof.
  destruct inventory_capacity_invariant as (_ & _ & Hkeep & Hfull).
  split.
  - apply Hfull. by vm_compute.
  - assert (length (inventory (player sample_world)) ≤ MAX_INVENTORY_ITEMS) as Hle.
    { unfold MAX_INVENTORY_ITEMS. simpl. lia. }
    destruct (Hkeep sample_world Hle) as (Hadd & _). exact (Hadd "key").
Defined.

(** ** Visited *)

Local Arguments Nat.leb : simpl never.

Lemma parse_locations_loop_origin (ms : list (string * json)) (acc : list Location)
    (l : Location) :
  l ∈ parse_locations_loop ms acc →
  l ∈ acc ∨
  ∃ k v, (k, v) ∈ ms ∧ loc_id l = safe_strcpy (Some k) 64 ∧
         visited l = get_json_bool v "visited".
Proof.
  revert acc. induction ms as [|[k v] ms IH]; simpl; intros acc Hl; [by left|].
  destruct (MAX_LOCATIONS <=? length acc); [by left|].
  assert (l ∈ acc ∨ (∃ k' v', (k', v') ∈ ms ∧ loc_id l = safe_strcpy (Some k') 64 ∧
            visited l = get_json_bool v' "visited") →
          l ∈ acc ∨ ∃ k' v', (k', v') ∈ (k, v) :: ms ∧
            loc_id l = safe_strcpy (Some k') 64 ∧
            visited l = get_json_bool v' "visited") as Hweak.
  { intros [?|(k' & v' & ? & ?)]; [by left|right]. exists k', v'. set_solver. }
  destruct (parse_location v zero_Location k) as [[] l'] eqn:Hparse.
  - apply IH in Hl as [Hl|Hl]; [|by apply Hweak; right].
    apply elem_of_app in Hl as [Hl|Hl]; [by left|].
    apply list_elem_of_singleton in Hl as ->. right. exists k, v.
    split; [set_solver|].
    destruct v; simpl in Hparse; try discriminate Hparse;
      injection Hparse as <-; done.
  - apply IH in Hl. by apply Hweak.
Qed.

Lemma get_location_by_id_visit (game : GameState) (id : string) (j : nat)
    (t : Location) (game' : GameState) :
  get_location_by_id game id = Some (j, t) →
  locations game' = <[j := set_visited true t]> (locations game) →
  get_location_by_id game' id = Some (j, set_visited true t).
Proof.
  unfold get_location_by_id. intros (Hj & Hid & Hmin)%list_find_Some ->.
  apply list_find_Some. split_and!.
  - apply list_lookup_insert_eq. by eapply lookup_lt_Some.
  - done.
  - intros k y Hk Hlt. rewrite list_lookup_insert_ne in Hk by lia. by eapply Hmin.
Qed.

Lemma move_player_loop_visited (game : GameState) (dir : string) (es : list Exit)
    (k : nat) (l : Location) :
  locations game !! k = Some l →
  ∃ l', locations (state_of (move_player_loop game dir es)) !! k = Some l' ∧
        loc_id l' = loc_id l ∧ (visited l = true → visited l' = true).
Proof.
  intros Hk. induction es as [|x es IH]; simpl; [by exists l|].
  destruct (strcasecmp0 (direction x) dir); [|done].
  destruct (get_location_by_id game (target_location x)) as [[j t]|] eqn:Hj;
    [|by exists l].
  simpl. apply list_find_Some in Hj as (Hj & _).
  destruct (decide (j = k)) as [->|Hne].
  - exists (set_visited true t). rewrite list_lookup_insert_eq by by eapply lookup_lt_Some.
    split_and!; [done| |done]. simpl. congruence.
  - exists l. by rewrite list_lookup_insert_ne.
Qed.

Lemma move_player_loop_arrival (game : GameState) (dir : string) (es : list Exit) :
  Forall (λ e, fits 64 (target_location e)) es →
  ret_of (move_player_loop game dir es) = true →
  ∃ j l, get_current_location (state_of (move_player_loop game dir es)) = Some (j, l) ∧
         visited l = true.
Proof.
  induction 1 as [|x es Hx _ IH]; simpl; [done|].
  destruct (strcasecmp0 (direction x) dir); [|done].
  destruct (get_location_by_id game (target_location x)) as [[j t]|] eqn:Hj; [|done].
  intros _. exists j, (set_visited true t). split; [|done].
  unfold get_current_location. simpl. rewrite safe_strcpy_fits by done.
  by eapply get_location_by_id_visit.
Qed.

Lemma move_player_visited (game : GameState) (dir : string) (k : nat) (l : Location) :
  locations game !! k = Some l →
  ∃ l', locations (state_of (move_player game dir)) !! k = Some l' ∧
        loc_id l' = loc_id l ∧ (visited l = true → visited l' = true).
Proof.
  intros Hk. unfold move_player.
  destruct (get_current_location game) as [[i cur]|]; [|by exists l].
  by apply move_player_loop_visited.
Qed.

Lemma add_item_locations (game : GameState) (id : string) :
  locations (state_of (add_item_to_inventory game id)) = locations game.
Proof.
  unfold add_item_to_inventory.
  destruct (MAX_INVENTORY_ITEMS <=? length (inventory (player game))); [done|].
  by destruct (ret_of (has_item game id)).
Qed.

Lemma remove_item_locations (game : GameState) (id : string) :
  locations (state_of (remove_item_from_inventory game id)) = locations game.
Proof.
  unfold remove_item_from_inventory.
  by destruct (remove_item_loop (inventory (player game)) id).
Qed.

Lemma set_flag_locations (game : GameState) (n : string) (v : bool) :
  locations (state_of (set_flag game n v)) = locations game.
Proof.
  unfold set_flag.
  destruct (update_flag (flags (player game)) n v); [done|].
  destruct (update_flag (game_flags game) n v); [done|].
  by destruct (length (flags (player game)) <? MAX_FLAGS).
Qed.

(** C7, as the code has it.  A location of a freshly loaded world has the
    value of the boolean field visited of its entry in the document, false
    when the entry has none.  After a successful [move_player] the location
    the player is in has visited true.  No operation changes visited from
    true to false: a location with visited true keeps its slot, its id and
    visited true through every operation, a second move into it included. *)
Theorem visited_set_on_arrival_never_reset :
  (∀ doc game l,
     load_game (Some doc) = Some game → l ∈ locations game →
     ∃ ms k v,
       json_object_object_get_ex doc "locations" = Some (JObject ms) ∧
       (k, v) ∈ ms ∧ loc_id l = safe_strcpy (Some k) 64 ∧
       visited l = get_json_bool v "visited" ∧
       (json_object_object_get_ex v "visited" = None → visited l = false)) ∧
  (∀ game dir,
     wf_GameState game → ret_of (move_player game dir) = true →
     ∃ j l, get_current_location (state_of (move_player game dir)) = Some (j, l) ∧
            visited l = true) ∧
  (∀ game k l,
     locations game !! k = Some l → visited l = true →
     (∀ dir, ∃ l', locations (state_of (move_player game dir)) !! k = Some l' ∧
                   loc_id l' = loc_id l ∧ visited l' = true) ∧
     (∀ id, locations (state_of (add_item_to_inventory game id)) !! k = Some l) ∧
     (∀ id, locations (state_of (remove_item_from_inventory game id)) !! k = Some l) ∧
     (∀ n v, locations (state_of (set_flag game n v)) !! k = Some l) ∧
     (∀ n, locations (state_of (get_flag game n)) !! k = Some l)).
Proof.
  split_and!.
  - intros doc game l Hload Hl. unfold load_game in Hload.
    destruct (is_null doc); [done|]. injection Hload as <-.
    simpl in Hl. unfold load_locations in Hl.
    destruct (json_object_object_get_ex doc "locations") as [[| | | | |ms]|];
      simpl in Hl; try by apply elem_of_nil in Hl.
    apply parse_locations_loop_origin in Hl as [Hl|(k & v & Hkv & Hid & Hvis)];
      [by apply elem_of_nil in Hl|].
    exists ms, k, v. split_and!; [done..|].
    intros Hnone. rewrite Hvis. unfold get_json_bool. by rewrite Hnone.
  - intros game dir Hwf. unfold move_player.
    destruct (get_current_location game) as [[i cur]|] eqn:Hcur; [|done].
    apply move_player_loop_arrival. apply Forall_forall. intros e He.
    by eapply wf_exit_of_current.
  - intros game k l Hk Hv. split_and!.
    + intros dir. destruct (move_player_visited game dir k l Hk) as (l' & ? & ? & Hl').
      exists l'. split_and!; [done..|]. by apply Hl'.
    + intros id. by rewrite add_item_locations.
    + intros id. by rewrite remove_item_locations.
    + intros n v. by rewrite set_flag_locations.
    + intros n. by rewrite get_flag_state.
Qed.

Lemma visited_set_on_arrival_never_reset_witness :
  ∃ j l, get_current_location (state_of (move_player sample_world "north")) = Some (j, l) ∧
         visited l = true.
Proof.
  destruct visited_set_on_arrival_never_reset as (_ & H & _).
  exact (H sample_world "north" sample_world_wf eq_refl).
Defined.

(** C7, the claim as written fails: a location whose entry in the document
    says visited true is loaded with visited true. *)
Lemma loaded_location_can_be_visited :
  (λ game, visited <$> locations game) <$> load_game (Some visited_doc) = Some [true].
Proof. by vm_compute. Qed.

(** ** The command handler *)

Lemma strncmp0_go (input : string) :
  strncmp0 input "go " 3 = true ↔ ∃ d, input = "go " +:+ d.
Proof.
  unfold strncmp0. rewrite bool_decide_eq_true. split.
  - destruct input as [|a [|b [|c d]]]; simpl; try discriminate.
    intros [= -> -> ->]. by exists d.
  - by intros [d ->].
Qed.

Lemma strncmp0_move (input : string) :
  strncmp0 input "move " 5 = true ↔ ∃ d, input = "move " +:+ d.
Proof.
  unfold strncmp0. rewrite bool_decide_eq_true. split.
  - destruct input as [|a [|b [|c [|d [|e r]]]]]; simpl; try discriminate.
    intros [= -> -> -> -> ->]. by exists r.
  - by intros [d ->].
Qed.

Lemma prefix_test_false (input : string) :
  (∀ d, input ≠ "go " +:+ d ∧ input ≠ "move " +:+ d) →
  strncmp0 input "go " 3 || strncmp0 input "move " 5 = false.
Proof.
  intros Hno. apply orb_false_iff. split; apply not_true_is_false.
  - intros [d ->]%strncmp0_go. by destruct (Hno d).
  - intros [d ->]%strncmp0_move. by destruct (Hno d).
Qed.

Section HandlerProperties.

Variables Surface Texture : Type.
Variable IMG_Load : string → option Surface.
Variable SDL_CreateTextureFromSurface : Surface → option Texture.
Variables IMG_GetError SDL_GetError : string.

Local Abbreviation handle :=
  (handle_input Surface Texture IMG_Load SDL_CreateTextureFromSurface
     IMG_GetError SDL_GetError).

Lemma handle_input_move (d input : string) (p : Process Texture) (game : GameState) :
  game_state _ p = Some game →
  strncmp0 input "go " 3 || strncmp0 input "move " 5 = true →
  direction_of input = d →
  game_state _ (handle input p) = Some (state_of (move_player game d)) ∧
  running _ (renderer _ (handle input p)) = running _ (renderer _ p) ∧
  ∃ out', stdout _ (handle input p) = stdout _ p ++ out_of (move_player game d) ++ out'.
Proof.
  intros Hg Hpre <-. unfold handle_input. rewrite Hg, Hpre.
  destruct (move_player game (direction_of input)) as [[[] game'] out]; simpl.
  - destruct (match get_current_location game' with
              | Some (_, new_location) =>
                  if negb (bool_decide (image_path new_location = ""))
                  then load_location_image Surface Texture IMG_Load
                         SDL_CreateTextureFromSurface IMG_GetError SDL_GetError
                         (image_path new_location)
                  else (None, [])
              | None => (None, [])
              end) as [image out'].
    simpl. split_and!; [done..|]. by exists out'.
  - split_and!; [done..|]. exists []. by rewrite app_nil_r.
Qed.

(** C8. The command handler.  A line that starts with "go " or "move " calls
    [move_player] with the rest of the line after that space; look and l
    change nothing; inventory, i and help only print; quit and exit clear
    the running flag and are the only lines that do; any other line only
    prints that the command is unknown. *)
Theorem handle_input_dispatch (input : string) (p : Process Texture) (game : GameState) :
  game_state _ p = Some game →
  (∀ d, input = "go " +:+ d ∨ input = "move " +:+ d →
     game_state _ (handle input p) = Some (state_of (move_player game d)) ∧
     running _ (renderer _ (handle input p)) = running _ (renderer _ p) ∧
     ∃ out', stdout _ (handle input p)
               = stdout _ p ++ out_of (move_player game d) ++ out') ∧
  (input = "look" ∨ input = "l" → handle input p = p) ∧
  (input = "inventory" ∨ input = "i" →
     handle input p =
       {| game_state := game_state _ p; renderer := renderer _ p;
          stdout := stdout _ p ++ ["Inventory system not yet implemented."] |}) ∧
  (input = "help" →
     handle input p =
       {| game_state := game_state _ p; renderer := renderer _ p;
          stdout :=
            stdout _ p
              ++ ["Available commands: go <direction>, look, inventory, help, quit"] |}) ∧
  (input = "quit" ∨ input = "exit" →
     handle input p =
       {| game_state := game_state _ p;
          renderer :=
            {| location_image := location_image _ (renderer _ p); running := false |};
          stdout := stdout _ p |}) ∧
  ((∀ d, input ≠ "go " +:+ d ∧ input ≠ "move " +:+ d) →
   input ∉ ["look"; "l"; "inventory"; "i"; "help"; "quit"; "exit"] →
     handle input p =
       {| game_state := game_state _ p; renderer := renderer _ p;
          stdout := stdout _ p ++ ["Unknown command: " +:+ input] |}) ∧
  (running _ (renderer _ (handle input p)) ≠ running _ (renderer _ p) →
     input = "quit" ∨ input = "exit").
Proof.
  intros Hg. split_and!.
  - intros d [->| ->]; by apply handle_input_move.
  - unfold handle_input. rewrite Hg. by intros [->| ->].
  - unfold handle_input. rewrite Hg. by intros [->| ->].
  - unfold handle_input. rewrite Hg. by intros ->.
  - unfold handle_input. rewrite Hg. by intros [->| ->].
  - intros Hpre Hnot. unfold handle_input. rewrite Hg, prefix_test_false by done.
    repeat (apply not_elem_of_cons in Hnot as [?%strcmp0_false Hnot]).
    by repeat match goal with H : strcmp0 _ _ = false |- _ => rewrite H; clear H end.
  - destruct (strncmp0 input "go " 3 || strncmp0 input "move " 5) eqn:Hpre.
    + destruct (handle_input_move _ input p game Hg Hpre eq_refl) as (_ & Hrun & _).
      by rewrite Hrun.
    + unfold handle_input. rewrite Hg, Hpre.
      destruct (strcmp0 input "look" || strcmp0 input "l"); [done|].
      destruct (strcmp0 input "inventory" || strcmp0 input "i"); [done|].
      destruct (strcmp0 input "help"); [done|].
      destruct (strcmp0 input "quit" || strcmp0 input "exit") eqn:Hq; [|done].
      intros _. apply orb_true_iff in Hq as [?%strcmp0_true|?%strcmp0_true]; auto.
Qed.

End HandlerProperties.

Lemma handle_input_dispatch_witness :
  let p := {| game_state := Some sample_world;
              renderer := {| location_image := @None unit; running := true |};
              stdout := [] |} in
  let handle := handle_input unit unit (λ _, None) (λ _, None) "" "" in
  game_state _ (handle "go north" p) = Some (state_of (move_player sample_world "north")) ∧
  running _ (renderer _ (handle "quit" p)) = false.
Proof.
  intros p handle. split.
  - destruct (handle_input_dispatch unit unit (λ _, None) (λ _, None) "" ""
                "go north" p sample_world eq_refl) as (H & _).
    destruct (H "north" (or_introl eq_refl)) as (Hgame & _). exact Hgame.
  - destruct (handle_input_dispatch unit unit (λ _, None) (λ _, None) "" ""
                "quit" p sample_world eq_refl) as (_ & _ & _ & _ & H & _).
    unfold handle. by rewrite (H (or_introl eq_refl)).
Defined.

(** ** Loading *)

Lemma fits_copy_if (src : option string) (n : nat) (old : string) :
  0 < n → fits n old → fits n (copy_if src n old).
Proof. intros Hn Hold. destruct src; simpl; [|done]. by apply fits_safe_strcpy. Qed.

Lemma load_start_location_fits (doc : json) :
  fits 64 (load_start_location doc zero_GameState).
Proof. apply fits_copy_if; [lia|]. unfold fits. simpl. lia. Qed.

Lemma copy_if_None (n : nat) (old : string) : copy_if None n old = old.
Proof. done. Qed.

Lemma parse_locations_loop_parsed (ms : list (string * json)) (acc : list Location)
    (l : Location) :
  l ∈ parse_locations_loop ms acc →
  l ∈ acc ∨ ∃ k v, (k, v) ∈ ms ∧ parse_location v zero_Location k = (true, l).
Proof.
  revert acc. induction ms as [|[k v] ms IH]; intros acc Hl; [by left|].
  cbn [parse_locations_loop] in Hl.
  destruct (MAX_LOCATIONS <=? length acc); [by left|].
  destruct (parse_location v zero_Location k) as [[] l'] eqn:Hparse.
  - apply IH in Hl as [Hl|(k' & v' & Hin & Hp)].
    + apply elem_of_app in Hl as [Hl|Hl]; [by left|].
      apply list_elem_of_singleton in Hl as ->. right. exists k, v.
      split; [apply list_elem_of_here|done].
    + right. exists k', v'. split; [by apply list_elem_of_further|done].
  - apply IH in Hl as [Hl|(k' & v' & Hin & Hp)]; [by left|].
    right. exists k', v'. split; [by apply list_elem_of_further|done].
Qed.

Lemma parse_inventory_items_loop_parsed (ms : list (string * json))
    (acc : list InventoryItem) (it : InventoryItem) :
  it ∈ parse_inventory_items_loop ms acc →
  it ∈ acc ∨ ∃ k v, (k, v) ∈ ms ∧ parse_inventory_item v zero_InventoryItem k = (true, it).
Proof.
  revert acc. induction ms as [|[k v] ms IH]; intros acc Hl; [by left|].
  cbn [parse_inventory_items_loop] in Hl.
  destruct (MAX_INVENTORY_ITEMS <=? length acc); [by left|].
  destruct (parse_inventory_item v zero_InventoryItem k) as [[] it'] eqn:Hparse.
  - apply IH in Hl as [Hl|(k' & v' & Hin & Hp)].
    + apply elem_of_app in Hl as [Hl|Hl]; [by left|].
      apply list_elem_of_singleton in Hl as ->. right. exists k, v.
      split; [apply list_elem_of_here|done].
    + right. exists k', v'. split; [by apply list_elem_of_further|done].
  - apply IH in Hl as [Hl|(k' & v' & Hin & Hp)]; [by left|].
    right. exists k', v'. split; [by apply list_elem_of_further|done].
Qed.

(** C9. Every document the parser accepts is loaded, whatever it leaves out.
    Without a player block, or with a player block that has no string
    current_location, the player starts at the start location of the loaded
    state.  What the document leaves out keeps the zero value of the freshly
    allocated state: empty string, false, empty list.  This holds for each
    block left out as a whole (meta, start_location, locations,
    inventory_items, player), for each field left out of a meta block, of a
    player block, of a location and of an item, and for the flag tables,
    which the loader never fills; every location and every item of the
    loaded state is what [parse_location] or [parse_inventory_item] made of
    one member of the document. *)
Theorem load_game_defaults :
  (∀ doc, doc ≠ JNull → ∃ game, load_game (Some doc) = Some game) ∧
  (∀ doc game,
     load_game (Some doc) = Some game →
     (json_object_object_get_ex doc "player" = None ∨
      (∃ p, json_object_object_get_ex doc "player" = Some p ∧
            get_json_string p "current_location" = None) →
      current_location (player game) = start_location game) ∧
     (json_object_object_get_ex doc "meta" = None → meta game = zero_GameMeta) ∧
     (json_object_object_get_ex doc "start_location" = None → start_location game = "") ∧
     (json_object_object_get_ex doc "locations" = None → locations game = []) ∧
     (json_object_object_get_ex doc "inventory_items" = None → inventory_items game = []) ∧
     (json_object_object_get_ex doc "player" = None →
      inventory (player game) = [] ∧ flags (player game) = []) ∧
     game_flags game = [] ∧
     flags (player game) = [] ∧
     (∀ m, json_object_object_get_ex doc "meta" = Some m →
        (get_json_string m "title" = None → meta_title (meta game) = "") ∧
        (get_json_string m "author" = None → author (meta game) = "") ∧
        (get_json_string m "description" = None → meta_description (meta game) = "") ∧
        (get_json_string m "version" = None → version (meta game) = "")) ∧
     (∀ p, json_object_object_get_ex doc "player" = Some p →
        (json_object_object_get_ex p "inventory" = None → inventory (player game) = []) ∧
        (get_json_string p "current_location" = None →
         current_location (player game) = start_location game))) ∧
  (∀ v k l,
     parse_location v zero_Location k = (true, l) →
     (json_object_object_get_ex v "title" = None → loc_title l = "") ∧
     (json_object_object_get_ex v "description" = None → loc_description l = "") ∧
     (json_object_object_get_ex v "image" = None → image_path l = "") ∧
     (json_object_object_get_ex v "first_visit_text" = None → first_visit_text l = "") ∧
     (json_object_object_get_ex v "visited" = None → visited l = false) ∧
     (json_object_object_get_ex v "exits" = None → exits l = []) ∧
     (json_object_object_get_ex v "items" = None → items l = [])) ∧
  (∀ v k it,
     parse_inventory_item v zero_InventoryItem k = (true, it) →
     (json_object_object_get_ex v "name" = None → name it = "") ∧
     (json_object_object_get_ex v "description" = None → item_description it = "") ∧
     (json_object_object_get_ex v "takeable" = None → takeable it = false) ∧
     (json_object_object_get_ex v "useable" = None → useable it = false) ∧
     (json_object_object_get_ex v "use_text" = None → use_text it = "")) ∧
  (∀ doc game l,
     load_game (Some doc) = Some game → l ∈ locations game →
     ∃ ms k v, json_object_object_get_ex doc "locations" = Some (JObject ms) ∧
               (k, v) ∈ ms ∧ parse_location v zero_Location k = (true, l)) ∧
  (∀ doc game it,
     load_game (Some doc) = Some game → it ∈ inventory_items game →
     ∃ ms k v, json_object_object_get_ex doc "inventory_items" = Some (JObject ms) ∧
               (k, v) ∈ ms ∧ parse_inventory_item v zero_InventoryItem k = (true, it)).
Proof.
  split_and!.
  - intros doc Hdoc. unfold load_game. destruct doc; try done; by eexists.
  - intros doc game Hload. unfold load_game in Hload.
    destruct (is_null doc); [done|]. injection Hload as <-.
    unfold load_document. simpl. split_and!.
    + pose proof (load_start_location_fits doc) as Hfit.
      unfold load_player. intros [->|(p & -> & ->)]; simpl; by apply safe_strcpy_fits.
    + unfold load_meta. by intros ->.
    + unfold load_start_location, get_json_string. by intros ->.
    + unfold load_locations. by intros ->.
    + unfold load_inventory_items. by intros ->.
    + unfold load_player. by intros ->.
    + done.
    + unfold load_player. by destruct (json_object_object_get_ex doc "player").
    + unfold load_meta. intros m ->. simpl. split_and!; by intros ->.
    + pose proof (load_start_location_fits doc) as Hfit.
      unfold load_player. intros p ->. simpl. split.
      * by intros ->.
      * intros ->. by apply safe_strcpy_fits.
  - intros v k l Hparse.
    assert (l = (parse_location v zero_Location k).2) as -> by by rewrite Hparse.
    clear Hparse. unfold get_json_string, get_json_bool.
    destruct v; simpl; unfold get_json_string, get_json_bool; simpl;
      (split_and!; try done; by intros ->).
  - intros v k it Hparse.
    assert (it = (parse_inventory_item v zero_InventoryItem k).2) as ->
      by by rewrite Hparse.
    clear Hparse.
    destruct v; simpl; unfold get_json_string, get_json_bool; simpl;
      (split_and!; try done; by intros ->).
  - intros doc game l Hload Hl. unfold load_game in Hload.
    destruct (is_null doc); [done|]. injection Hload as <-.
    simpl in Hl. unfold load_locations in Hl.
    destruct (json_object_object_get_ex doc "locations") as [[| | | | |ms]|];
      simpl in Hl; try by apply elem_of_nil in Hl.
    apply parse_locations_loop_parsed in Hl as [Hl|(k & v & Hkv & Hp)];
      [by apply elem_of_nil in Hl|].
    by exists ms, k, v.
  - intros doc game it Hload Hl. unfold load_game in Hload.
    destruct (is_null doc); [done|]. injection Hload as <-.
    simpl in Hl. unfold load_inventory_items in Hl.
    destruct (json_object_object_get_ex doc "inventory_items") as [[| | | | |ms]|];
      simpl in Hl; try by apply elem_of_nil in Hl.
    apply parse_inventory_items_loop_parsed in Hl as [Hl|(k & v & Hkv & Hp)];
      [by apply elem_of_nil in Hl|].
    by exists ms, k, v.
Qed.

Lemma load_game_defaults_witness :
  (∃ game, load_game (Some no_player_doc) = Some game ∧
           current_location (player game) = "start" ∧ inventory (player game) = []) ∧
  (∃ game, load_game (Some empty_blocks_doc) = Some game ∧
           meta_title (meta game) = "" ∧ version (meta game) = "" ∧
           inventory (player game) = [] ∧ current_location (player game) = "start").
Proof.
  destruct load_game_defaults as (Hsome & Hdef & _).
  split.
  - assert (no_player_doc ≠ JNull) as Hne by done.
    destruct (Hsome no_player_doc Hne) as [game Hgame].
    exists game. split; [exact Hgame|].
    destruct (Hdef no_player_doc game Hgame) as (Hcur & _ & _ & _ & _ & Hinv & _).
    split.
    + rewrite (Hcur (or_introl eq_refl)).
      injection Hgame as <-. reflexivity.
    + exact (proj1 (Hinv eq_refl)).
  - assert (empty_blocks_doc ≠ JNull) as Hne by done.
    destruct (Hsome empty_blocks_doc Hne) as [game Hgame].
    exists game. split; [exact Hgame|].
    destruct (Hdef empty_blocks_doc game Hgame)
      as (_ & _ & _ & _ & _ & _ & _ & _ & Hmeta & Hplayer).
    destruct (Hmeta (JObject []) eq_refl) as (Htitle & _ & _ & Hversion).
    destruct (Hplayer (JObject []) eq_refl) as (Hinv & Hcur).
    split; [exact (Htitle eq_refl)|]. split; [exact (Hversion eq_refl)|].
    split; [exact (Hinv eq_refl)|].
    rewrite (Hcur eq_refl). injection Hgame as <-. reflexivity.
Defined.

(** ** The two loaders *)

Ltac split_andb :=
  repeat match goal with
         | H : _ && _ = true |- _ => apply andb_true_iff in H as [? ?]
         end.

Lemma strcmp0_strcasecmp0 (a b : string) : strcmp0 a b = true → strcasecmp0 b a = true.
Proof.
  intros ->%strcmp0_true. unfold strcasecmp0. by apply bool_decide_eq_true.
Qed.

Lemma get_object_item_plain (ks : list string) (ms : list (string * json)) (k : string) :
  forallb (λ m, forallb (λ k, implb (strcasecmp0 k m.1) (strcmp0 m.1 k)) ks) ms = true →
  k ∈ ks →
  Legacy.get_object_item ms k = object_lookup ms k.
Proof.
  intros Hms Hk. induction ms as [|[k' v] ms IH]; simpl in *; [done|].
  split_andb.
  assert (implb (strcasecmp0 k k') (strcmp0 k' k) = true) as Himp.
  { match goal with H : forallb _ ks = true |- _ => rewrite forallb_forall in H;
      apply H end. by apply list_elem_of_In. }
  destruct (strcmp0 k' k) eqn:Hexact.
  - by rewrite (strcmp0_strcasecmp0 _ _ Hexact).
  - destruct (strcasecmp0 k k'); [done|]. by apply IH.
Qed.

Lemma cJSON_GetObjectItem_plain (ks : list string) (j : json) (k : string) :
  plain_keys ks j = true → k ∈ ks →
  Legacy.cJSON_GetObjectItem j k = json_object_object_get_ex j k.
Proof.
  unfold plain_keys. intros Hp Hk. split_andb.
  destruct j; try done. simpl in *. by eapply get_object_item_plain.
Qed.

Lemma copy_if_string_lookup (obj : json) (k : string) (n : nat) (old : string) :
  Legacy.copy_if_string (json_object_object_get_ex obj k) n old
    = copy_if (get_json_string obj k) n old.
Proof.
  unfold Legacy.copy_if_string, get_json_string.
  by destruct (json_object_object_get_ex obj k) as [[]|].
Qed.

Lemma assign_if_bool_lookup (obj : json) (k : string) :
  Legacy.assign_if_bool (json_object_object_get_ex obj k) false = get_json_bool obj k.
Proof.
  unfold Legacy.assign_if_bool, get_json_bool.
  by destruct (json_object_object_get_ex obj k) as [[]|].
Qed.

Lemma parse_exits_loop_typed (ms : list (string * json)) (acc : list Exit) :
  forallb (λ m, is_string m.2) ms = true →
  Legacy.parse_exits_loop ms acc = parse_exits_loop ms acc.
Proof.
  revert acc. induction ms as [|[k v] ms IH]; simpl; intros acc Hms; [done|].
  split_andb. destruct (MAX_EXITS <=? length acc); [done|].
  destruct v; try done. simpl. by apply IH.
Qed.

Lemma parse_ids_loop_same (cap : nat) (els : list json) (acc : list string) :
  Legacy.parse_ids_loop cap els acc = parse_ids_loop cap els acc.
Proof.
  revert acc. induction els as [|el els IH]; simpl; intros acc; [done|].
  destruct (cap <=? length acc); [done|]. by destruct el; simpl.
Qed.

Lemma field_ok_Some (obj : json) (k : string) (ok : json → bool) (v : json) :
  field_ok obj k ok = true → json_object_object_get_ex obj k = Some v → ok v = true.
Proof. unfold field_ok. intros H Hget. by rewrite Hget in H. Qed.

Lemma parse_location_same (v : json) (k : string) :
  well_typed_location v = true → plain_location v = true →
  Legacy.parse_location v zero_Location k = parse_location v zero_Location k.
Proof.
  unfold well_typed_location, plain_location. intros Hty Hplain. split_andb.
  assert (∀ key, key ∈ location_keys →
            Legacy.cJSON_GetObjectItem v key = json_object_object_get_ex v key) as Hget.
  { intros key Hkey. by eapply cJSON_GetObjectItem_plain. }
  destruct v as [| | | | |ms]; try done.
  unfold Legacy.parse_location, parse_location.
  rewrite !Hget by (unfold location_keys; set_solver).
  rewrite !copy_if_string_lookup, assign_if_bool_lookup.
  do 2 f_equal.
  - destruct (json_object_object_get_ex (JObject ms) "exits")
      as [[| | | | |es]|] eqn:Hex; try done.
    apply parse_exits_loop_typed.
    match goal with
    | H : field_ok _ "exits" (object_of is_string) = true |- _ =>
        apply (field_ok_Some _ _ _ _ H Hex)
    end.
  - destruct (json_object_object_get_ex (JObject ms) "items") as [[| | | |els|]|];
      try done.
    apply parse_ids_loop_same.
Qed.

Lemma parse_inventory_item_same (v : json) (k : string) :
  well_typed_item v = true →
  plain_keys ["name"; "description"; "takeable"; "useable"; "use_text"] v = true →
  Legacy.parse_inventory_item v zero_InventoryItem k
    = parse_inventory_item v zero_InventoryItem k.
Proof.
  unfold well_typed_item. intros Hty Hplain. split_andb.
  assert (∀ key, key ∈ ["name"; "description"; "takeable"; "useable"; "use_text"] →
            Legacy.cJSON_GetObjectItem v key = json_object_object_get_ex v key) as Hget.
  { intros key Hkey. by eapply cJSON_GetObjectItem_plain. }
  destruct v as [| | | | |ms]; try done.
  unfold Legacy.parse_inventory_item, parse_inventory_item.
  rewrite !Hget by set_solver.
  by rewrite !copy_if_string_lookup, !assign_if_bool_lookup.
Qed.

Lemma parse_locations_loop_same (ms : list (string * json)) (acc : list Location) :
  forallb (λ m, well_typed_location m.2) ms = true →
  forallb (λ m, plain_location m.2) ms = true →
  Legacy.parse_locations_loop ms acc = parse_locations_loop ms acc.
Proof.
  revert acc. induction ms as [|[k v] ms IH]; intros acc Hty Hplain; [done|].
  simpl in Hty, Hplain. split_andb.
  cbn [Legacy.parse_locations_loop parse_locations_loop].
  destruct (MAX_LOCATIONS <=? length acc); [done|].
  rewrite parse_location_same by done.
  destruct (parse_location v zero_Location k) as [[] l]; by apply IH.
Qed.

Lemma parse_inventory_items_loop_same (ms : list (string * json))
    (acc : list InventoryItem) :
  forallb (λ m, well_typed_item m.2) ms = true →
  forallb
    (λ m, plain_keys ["name"; "description"; "takeable"; "useable"; "use_text"] m.2)
    ms = true →
  Legacy.parse_inventory_items_loop ms acc = parse_inventory_items_loop ms acc.
Proof.
  revert acc. induction ms as [|[k v] ms IH]; intros acc Hty Hplain; [done|].
  simpl in Hty, Hplain. split_andb.
  cbn [Legacy.parse_inventory_items_loop parse_inventory_items_loop].
  destruct (MAX_INVENTORY_ITEMS <=? length acc); [done|].
  rewrite parse_inventory_item_same by done.
  destruct (parse_inventory_item v zero_InventoryItem k) as [[] l]; by apply IH.
Qed.

Lemma load_document_same (doc : json) :
  well_typed_document doc = true → plain_document doc = true →
  Legacy.load_document doc = load_document doc.
Proof.
  unfold well_typed_document, plain_document. intros Hty Hplain. split_andb.
  assert (∀ key, key ∈ ["meta"; "start_location"; "locations"; "inventory_items"; "player"] →
            Legacy.cJSON_GetObjectItem doc key = json_object_object_get_ex doc key)
    as Hget.
  { intros key Hkey. by eapply cJSON_GetObjectItem_plain. }
  assert (Legacy.load_start_location doc zero_GameState
            = load_start_location doc zero_GameState) as Hstart.
  { unfold Legacy.load_start_location, load_start_location.
    rewrite Hget by set_solver. apply copy_if_string_lookup. }
  unfold Legacy.load_document, load_document. rewrite Hstart. f_equal.
  - unfold Legacy.load_meta, load_meta. rewrite Hget by set_solver.
    destruct (json_object_object_get_ex doc "meta") as [m|] eqn:Hm; [|done].
    assert (∀ key, key ∈ ["title"; "author"; "description"; "version"] →
              Legacy.cJSON_GetObjectItem m key = json_object_object_get_ex m key)
      as Hgetm.
    { intros key Hkey. eapply cJSON_GetObjectItem_plain; [|done].
      by eapply field_ok_Some. }
    rewrite !Hgetm by set_solver. by rewrite !copy_if_string_lookup.
  - unfold Legacy.load_locations, load_locations. rewrite Hget by set_solver.
    destruct (json_object_object_get_ex doc "locations") as [[| | | | |ms]|] eqn:Hls;
      try done.
    match goal with
    | H : field_ok doc "locations" (object_of _) = true |- _ =>
        pose proof (field_ok_Some _ _ _ _ H Hls) as Hty
    end.
    match goal with
    | H : field_ok doc "locations" (λ _, _ && _) = true |- _ =>
        pose proof (field_ok_Some _ _ _ _ H Hls) as Hplain
    end.
    simpl in Hty, Hplain. split_andb. by apply parse_locations_loop_same.
  - unfold Legacy.load_inventory_items, load_inventory_items.
    rewrite Hget by set_solver.
    destruct (json_object_object_get_ex doc "inventory_items") as [[| | | | |ms]|]
      eqn:Hits; try done.
    match goal with
    | H : field_ok doc "inventory_items" (object_of _) = true |- _ =>
        pose proof (field_ok_Some _ _ _ _ H Hits) as Hty
    end.
    match goal with
    | H : field_ok doc "inventory_items" (λ _, _ && _) = true |- _ =>
        pose proof (field_ok_Some _ _ _ _ H Hits) as Hplain
    end.
    simpl in Hty, Hplain. split_andb. by apply parse_inventory_items_loop_same.
  - unfold Legacy.load_player, load_player. rewrite Hget by set_solver.
    destruct (json_object_object_get_ex doc "player") as [p|] eqn:Hp; [|done].
    assert (∀ key, key ∈ ["current_location"; "inventory"] →
              Legacy.cJSON_GetObjectItem p key = json_object_object_get_ex p key)
      as Hgetp.
    { intros key Hkey. eapply cJSON_GetObjectItem_plain; [|done].
      by eapply field_ok_Some. }
    rewrite !Hgetp by set_solver. unfold get_json_string. f_equal.
    + destruct (json_object_object_get_ex p "inventory") as [[| | | |els|]|]; try done.
      apply parse_ids_loop_same.
    + by destruct (json_object_object_get_ex p "current_location") as [[]|].
Qed.

(** C10, as the code has it.  On a well typed document whose objects have
    distinct member names and spell the keys of the format as the format
    does, the legacy loader and the json-c loader return the same state. *)
Theorem loaders_agree (doc : json) :
  well_typed_document doc = true → plain_document doc = true →
  Legacy.load_game (Some doc) = load_game (Some doc) ∧
  ∃ game, load_game (Some doc) = Some game.
Proof.
  intros Hty Hplain. unfold Legacy.load_game, load_game.
  rewrite load_document_same by done.
  assert (is_null doc = false) as ->.
  { unfold well_typed_document in Hty. split_andb. by destruct doc. }
  split; [done|]. by eexists.
Qed.

Lemma loaders_agree_witness :
  Legacy.load_game (Some readme_doc) = load_game (Some readme_doc) ∧
  ∃ game, load_game (Some readme_doc) = Some game.
Proof.
  apply (loaders_agree readme_doc); by vm_compute.
Defined.

(** C10, the claim as written fails: cJSON looks keys up without regard to
    letter case and json-c looks them up exactly, so on a well typed document
    that writes Title the legacy loader reads a title and the json-c loader
    reads none. *)
Lemma loaders_differ_on_key_case :
  well_typed_document capital_key_doc = true ∧
  (λ game, loc_title <$> locations game) <$> Legacy.load_game (Some capital_key_doc)
    = Some ["Cave"] ∧
  (λ game, loc_title <$> locations game) <$> load_game (Some capital_key_doc)
    = Some [""] ∧
  Legacy.load_game (Some capital_key_doc) ≠ load_game (Some capital_key_doc).
Proof. split_and!; by vm_compute. Qed.

(** ** The bounds hold in every state the engine reaches *)

Lemma fits_empty (n : nat) : 0 < n → fits n "".
Proof. unfold fits. simpl. lia. Qed.

Ltac fits_tac :=
  first
    [ apply fits_safe_strcpy; unfold MAX_STRING_LENGTH, MAX_DESCRIPTION_LENGTH; lia
    | apply fits_copy_if;
      [ unfold MAX_STRING_LENGTH, MAX_DESCRIPTION_LENGTH; lia
      | apply fits_empty; unfold MAX_STRING_LENGTH, MAX_DESCRIPTION_LENGTH; lia ]
    | apply fits_empty; unfold MAX_STRING_LENGTH, MAX_DESCRIPTION_LENGTH; lia ].

Lemma wf_flags_nil : wf_flags [].
Proof. split; [simpl; lia|constructor]. Qed.

Lemma parse_exits_loop_wf (ms : list (string * json)) (acc : list Exit) :
  length acc ≤ MAX_EXITS → Forall wf_Exit acc →
  length (parse_exits_loop ms acc) ≤ MAX_EXITS ∧ Forall wf_Exit (parse_exits_loop ms acc).
Proof.
  revert acc. induction ms as [|[k v] ms IH]; intros acc Hlen Hacc; [done|].
  cbn [parse_exits_loop].
  destruct (MAX_EXITS <=? length acc) eqn:Hcap; [done|].
  apply Nat.leb_gt in Hcap. destruct v; try by apply IH.
  apply IH.
  - rewrite length_app. simpl. lia.
  - apply Forall_app. split; [done|]. constructor; [|constructor].
    split; simpl; fits_tac.
Qed.

Lemma parse_ids_loop_fits (cap : nat) (els : list json) (acc : list string) :
  Forall (fits 64) acc → Forall (fits 64) (parse_ids_loop cap els acc).
Proof.
  revert acc. induction els as [|el els IH]; intros acc Hacc; [done|].
  cbn [parse_ids_loop]. destruct (cap <=? length acc); [done|].
  destruct el; try by apply IH.
  apply IH, Forall_app. split; [done|]. constructor; [fits_tac|constructor].
Qed.

Lemma parse_location_wf (v : json) (k : string) :
  wf_Location (parse_location v zero_Location k).2.
Proof.
  assert (wf_Location zero_Location) as Hzero.
  { unfold wf_Location. simpl.
    split_and!; try fits_tac; try done; try apply wf_flags_nil;
      unfold MAX_EXITS, MAX_ITEMS; lia. }
  assert (∀ o : option json,
            length (match o with
                    | Some (JObject ms) => parse_exits_loop ms []
                    | _ => []
                    end) ≤ MAX_EXITS ∧
            Forall wf_Exit (match o with
                            | Some (JObject ms) => parse_exits_loop ms []
                            | _ => []
                            end)) as Hexits.
  { intros [[| | | | |ms]|]; try (split; [simpl; unfold MAX_EXITS; lia|constructor]).
    apply parse_exits_loop_wf; [simpl; lia|constructor]. }
  assert (∀ o : option json,
            length (match o with
                    | Some (JArray els) => parse_ids_loop MAX_ITEMS els []
                    | _ => []
                    end) ≤ MAX_ITEMS ∧
            Forall (fits 64) (match o with
                              | Some (JArray els) => parse_ids_loop MAX_ITEMS els []
                              | _ => []
                              end)) as Hitems.
  { intros [[| | | |els|]|]; try (split; [simpl; unfold MAX_ITEMS; lia|constructor]).
    split; [apply parse_ids_loop_length; simpl; lia|].
    apply parse_ids_loop_fits. constructor. }
  destruct v; try exact Hzero; unfold parse_location, wf_Location; simpl;
    (split_and!; try fits_tac; try apply wf_flags_nil;
     try apply Hexits; try apply Hitems;
     try (unfold MAX_EXITS, MAX_ITEMS; lia); try constructor).
Qed.

Lemma parse_locations_loop_wf (ms : list (string * json)) (acc : list Location) :
  length acc ≤ MAX_LOCATIONS → Forall wf_Location acc →
  length (parse_locations_loop ms acc) ≤ MAX_LOCATIONS ∧
  Forall wf_Location (parse_locations_loop ms acc).
Proof.
  revert acc. induction ms as [|[k v] ms IH]; intros acc Hlen Hacc; [done|].
  cbn [parse_locations_loop].
  destruct (MAX_LOCATIONS <=? length acc) eqn:Hcap; [done|].
  apply Nat.leb_gt in Hcap. pose proof (parse_location_wf v k) as Hl.
  destruct (parse_location v zero_Location k) as [[] l]; [|by apply IH].
  apply IH.
  - rewrite length_app. simpl. lia.
  - apply Forall_app. split; [done|]. by constructor.
Qed.

Lemma parse_inventory_item_wf (v : json) (k : string) :
  wf_InventoryItem (parse_inventory_item v zero_InventoryItem k).2.
Proof.
  destruct v; unfold parse_inventory_item, wf_InventoryItem; simpl;
    split_and!; fits_tac.
Qed.

Lemma parse_inventory_items_loop_wf (ms : list (string * json))
    (acc : list InventoryItem) :
  length acc ≤ MAX_INVENTORY_ITEMS → Forall wf_InventoryItem acc →
  length (parse_inventory_items_loop ms acc) ≤ MAX_INVENTORY_ITEMS ∧
  Forall wf_InventoryItem (parse_inventory_items_loop ms acc).
Proof.
  revert acc. induction ms as [|[k v] ms IH]; intros acc Hlen Hacc; [done|].
  cbn [parse_inventory_items_loop].
  destruct (MAX_INVENTORY_ITEMS <=? length acc) eqn:Hcap; [done|].
  apply Nat.leb_gt in Hcap. pose proof (parse_inventory_item_wf v k) as Hl.
  destruct (parse_inventory_item v zero_InventoryItem k) as [[] l]; [|by apply IH].
  apply IH.
  - rewrite length_app. simpl. lia.
  - apply Forall_app. split; [done|]. by constructor.
Qed.

(** X17. A loaded state respects the bounds of the struct declarations: every
    string fits its buffer and every table is within its maximum, whatever
    the document holds. *)
Lemma load_game_wf (parsed : option json) (game : GameState) :
  load_game parsed = Some game → wf_GameState game.
Proof.
  unfold load_game. destruct parsed as [doc|]; [|done].
  destruct (is_null doc); [done|]. intros [= <-].
  unfold wf_GameState, load_document. simpl. split_and!.
  - unfold load_meta.
    destruct (json_object_object_get_ex doc "meta") as [m|];
      unfold wf_GameMeta; simpl; split_and!; fits_tac.
  - apply load_start_location_fits.
  - unfold load_locations.
    destruct (json_object_object_get_ex doc "locations") as [[| | | | |ms]|];
      simpl; try (unfold MAX_LOCATIONS; lia).
    apply parse_locations_loop_wf; [simpl; lia|constructor].
  - unfold load_locations.
    destruct (json_object_object_get_ex doc "locations") as [[| | | | |ms]|];
      simpl; try constructor.
    apply parse_locations_loop_wf; [simpl; lia|constructor].
  - unfold load_inventory_items.
    destruct (json_object_object_get_ex doc "inventory_items") as [[| | | | |ms]|];
      simpl; try (unfold MAX_INVENTORY_ITEMS; lia).
    apply parse_inventory_items_loop_wf; [simpl; lia|constructor].
  - unfold load_inventory_items.
    destruct (json_object_object_get_ex doc "inventory_items") as [[| | | | |ms]|];
      simpl; try constructor.
    apply parse_inventory_items_loop_wf; [simpl; lia|constructor].
  - apply wf_flags_nil.
  - unfold wf_Player. split_and!.
    + apply load_player_inventory_length.
    + unfold load_player.
      destruct (json_object_object_get_ex doc "player") as [p|]; simpl;
        [|constructor].
      destruct (json_object_object_get_ex p "inventory") as [[| | | |els|]|];
        simpl; try constructor.
      apply parse_ids_loop_fits. constructor.
    + unfold load_player.
      destruct (json_object_object_get_ex doc "player") as [p|]; simpl;
        [|fits_tac].
      destruct (get_json_string p "current_location"); fits_tac.
    + unfold load_player.
      destruct (json_object_object_get_ex doc "player") as [p|]; simpl;
        apply wf_flags_nil.
Qed.

Lemma wf_flags_names (fs fs' : list (string * bool)) :
  fs'.*1 = fs.*1 → wf_flags fs → wf_flags fs'.
Proof.
  unfold wf_flags. intros Hnames [Hlen Hfit]. split.
  - by rewrite <-(length_fmap fst fs'), Hnames, length_fmap.
  - apply (Forall_fmap fst (fits 64)) in Hfit.
    apply (Forall_fmap fst (fits 64)). by rewrite Hnames.
Qed.

Lemma remove_item_loop_Forall (P : string → Prop) (inv inv' : list string) (id : string) :
  remove_item_loop inv id = Some inv' → Forall P inv → Forall P inv'.
Proof.
  revert inv'. induction inv as [|x inv IH]; simpl; intros inv'; [done|].
  intros Hrm Hall. apply Forall_cons in Hall as [Hx Hall].
  destruct (strcmp0 x id).
  - by injection Hrm as <-.
  - apply fmap_Some in Hrm as (r & Hr & ->). constructor; [done|]. by apply IH.
Qed.

Lemma move_player_loop_wf (game : GameState) (dir : string) (es : list Exit) :
  wf_GameState game → wf_GameState (state_of (move_player_loop game dir es)).
Proof.
  intros Hwf. induction es as [|x es IH]; simpl; [done|].
  destruct (strcasecmp0 (direction x) dir); [|done].
  destruct (get_location_by_id game (target_location x)) as [[j t]|] eqn:Hj; [|done].
  apply list_find_Some in Hj as (Hj & _).
  destruct Hwf as (Hm & Hs & Hlen & Hlocs & Hil & Hits & Hgf & Hinv & Hfit & _ & Hpf).
  unfold wf_GameState, wf_Player, state_of. simpl. split_and!; try done.
  - by rewrite length_insert.
  - apply Forall_insert; [done|].
    apply list_elem_of_lookup_2 in Hj. rewrite Forall_forall in Hlocs.
    by apply Hlocs in Hj.
  - fits_tac.
Qed.

(** X18. Every operation keeps the bounds of the struct declarations. *)
Lemma operations_keep_wf (game : GameState) :
  wf_GameState game →
  (∀ dir, wf_GameState (state_of (move_player game dir))) ∧
  (∀ id, wf_GameState (state_of (add_item_to_inventory game id))) ∧
  (∀ id, wf_GameState (state_of (remove_item_from_inventory game id))) ∧
  (∀ n v, wf_GameState (state_of (set_flag game n v))) ∧
  (∀ n, wf_GameState (state_of (get_flag game n))).
Proof.
  intros Hwf. split_and!.
  - intros dir. unfold move_player.
    destruct (get_current_location game) as [[i cur]|]; [|done].
    by apply move_player_loop_wf.
  - intros id. unfold add_item_to_inventory.
    destruct (MAX_INVENTORY_ITEMS <=? length (inventory (player game))) eqn:Hfull;
      [done|].
    destruct (ret_of (has_item game id)); [done|].
    apply Nat.leb_gt in Hfull.
    destruct Hwf as (Hm & Hs & Hlen & Hlocs & Hil & Hits & Hgf & Hinv & Hfit & Hcur & Hpf).
    unfold wf_GameState, wf_Player, state_of. simpl. split_and!; try done.
    + rewrite length_app. simpl. lia.
    + apply Forall_app. split; [done|]. constructor; [fits_tac|constructor].
  - intros id. unfold remove_item_from_inventory.
    destruct (remove_item_loop (inventory (player game)) id) as [inv'|] eqn:Hrm;
      [|done].
    destruct Hwf as (Hm & Hs & Hlen & Hlocs & Hil & Hits & Hgf & Hinv & Hfit & Hcur & Hpf).
    unfold wf_GameState, wf_Player, state_of. simpl. split_and!; try done.
    + apply remove_item_loop_length in Hrm. lia.
    + by eapply remove_item_loop_Forall.
  - intros n v.
    destruct Hwf as (Hm & Hs & Hlen & Hlocs & Hil & Hits & Hgf & Hinv & Hfit & Hcur & Hpf).
    unfold set_flag.
    destruct (update_flag (flags (player game)) n v) as [fs|] eqn:Hp.
    { assert (n ∈ (flags (player game)).*1) as Hin.
      { apply dec_stable. intros Hno. apply (update_flag_None _ _ v) in Hno. congruence. }
      destruct (update_flag_Some _ _ v Hin) as (fs' & Hfs' & Hnames & _).
      assert (fs' = fs) as -> by congruence.
      unfold wf_GameState, wf_Player, state_of. simpl. split_and!; try done.
      by eapply wf_flags_names. }
    destruct (update_flag (game_flags game) n v) as [fs|] eqn:Hg.
    { assert (n ∈ (game_flags game).*1) as Hin.
      { apply dec_stable. intros Hno. apply (update_flag_None _ _ v) in Hno. congruence. }
      destruct (update_flag_Some _ _ v Hin) as (fs' & Hfs' & Hnames & _).
      assert (fs' = fs) as -> by congruence.
      unfold wf_GameState, wf_Player, state_of. simpl. split_and!; try done.
      by eapply wf_flags_names. }
    destruct (length (flags (player game)) <? MAX_FLAGS) eqn:Hlt;
      unfold wf_GameState, wf_Player, state_of; simpl; split_and!; try done.
    apply Nat.ltb_lt in Hlt. destruct Hpf as [Hpl Hpn]. split.
    + rewrite length_app. simpl. lia.
    + apply Forall_app. split; [done|]. constructor; [simpl; fits_tac|constructor].
  - intros n. by rewrite get_flag_state.
Qed.

(** ** The scenarios of the specification, run on the model *)

Example scenario_go_north :
  let p := submit "go north" (boot two_rooms_doc) in
  (λ g, (current_location (player g), visited <$> locations g)) <$> game_state _ p
    = Some ("room2", [false; true]) ∧
  stdout _ p = ["You go north."] ∧ running _ (renderer _ p) = true.
Proof. by vm_compute. Qed.

Example scenario_go_north_twice :
  let p := submit "go north" (submit "go north" (boot two_rooms_doc)) in
  game_state _ p = game_state _ (submit "go north" (boot two_rooms_doc)) ∧
  stdout _ p = ["You go north."; "You can't go north from here."].
Proof. by vm_compute. Qed.

Example scenario_keyword_case :
  stdout _ (submit "GO north" (boot two_rooms_doc)) = ["Unknown command: GO north"] ∧
  game_state _ (submit "GO north" (boot two_rooms_doc)) = game_state _ (boot two_rooms_doc).
Proof. by vm_compute. Qed.

Example scenario_direction_case :
  (λ g, current_location (player g)) <$> game_state _ (submit "move NORTH" (boot two_rooms_doc))
    = Some "room2".
Proof. by vm_compute. Qed.

Example scenario_quit :
  running _ (renderer _ (submit "quit" (boot two_rooms_doc))) = false ∧
  running _ (renderer _ (submit "exit" (boot two_rooms_doc))) = false ∧
  running _ (renderer _ (submit "quit " (boot two_rooms_doc))) = true.
Proof. by vm_compute. Qed.

(** A name of 64 bytes is stored cut to 63 bytes in the player table, where it
    takes precedence over the flag of that name in the game table. *)
Example long_flag_name_shadows_game_flag :
  let short := str_take 63 long_id in
  let game := set_game_flags [(short, true)] sample_world in
  ret_of (get_flag game short) = true ∧
  ret_of (get_flag (state_of (set_flag game long_id false)) short) = false.
Proof. by vm_compute. Qed.

(** * Further properties of the engine *)

(** ** Copying and comparing strings *)

Lemma str_take_prefix (n : nat) (s : string) : ∃ rest, s = str_take n s +:+ rest.
Proof.
  revert s. induction n as [|n IH]; intros [|c s]; simpl; try by eexists.
  destruct (IH s) as [rest Hrest]. exists rest. exact (f_equal (String c) Hrest).
Qed.

Lemma str_take_length_min (n : nat) (s : string) :
  String.length (str_take n s) = n `min` String.length s.
Proof.
  revert s. induction n as [|n IH]; intros [|c s]; simpl; try done.
  by rewrite IH.
Qed.

(** X1. [safe_strcpy] into a buffer of [n] bytes keeps the first [n - 1]
    bytes of the source: the result fits the buffer, is a prefix of the
    source, and is the source itself exactly when the source fits. *)
Theorem safe_strcpy_truncates (s : string) (n : nat) :
  0 < n →
  fits n (safe_strcpy (Some s) n) ∧
  String.length (safe_strcpy (Some s) n) = (n - 1) `min` String.length s ∧
  (∃ rest, s = safe_strcpy (Some s) n +:+ rest) ∧
  (safe_strcpy (Some s) n = s ↔ fits n s).
Proof.
  intros Hn. split_and!.
  - by apply fits_safe_strcpy.
  - apply str_take_length_min.
  - apply str_take_prefix.
  - split; [|apply safe_strcpy_fits].
    intros Heq. pose proof (fits_safe_strcpy n (Some s) Hn) as Hfit.
    by rewrite Heq in Hfit.
Qed.

Lemma safe_strcpy_truncates_witness :
  fits 4 (safe_strcpy (Some "north") 4) ∧ safe_strcpy (Some "up") 4 = "up".
Proof.
  assert (0 < 4) as Hn by lia.
  destruct (safe_strcpy_truncates "north" 4 Hn) as (Hfit & _).
  destruct (safe_strcpy_truncates "up" 4 Hn) as (_ & _ & _ & Hup).
  split; [exact Hfit|]. apply Hup. unfold fits. simpl. lia.
Defined.

Lemma strcasecmp0_sym (a b : string) : strcasecmp0 a b = strcasecmp0 b a.
Proof.
  unfold strcasecmp0. apply bool_decide_ext. split; by intros ->.
Qed.

Lemma strcasecmp0_trans_l (a b c : string) :
  strcasecmp0 a b = true → strcasecmp0 c a = strcasecmp0 c b.
Proof.
  unfold strcasecmp0. intros Hab%bool_decide_eq_true. by rewrite Hab.
Qed.

(** ** Looking locations up *)

(** X2. [get_location_by_id] finds a location exactly when some location of
    the table has that id, and then returns the first one that has it. *)
Theorem get_location_by_id_first (game : GameState) (id : string) :
  (is_Some (get_location_by_id game id) ↔ id ∈ loc_id <$> locations game) ∧
  (∀ i l, get_location_by_id game id = Some (i, l) →
     locations game !! i = Some l ∧ loc_id l = id ∧
     ∀ j l', locations game !! j = Some l' → j < i → loc_id l' ≠ id).
Proof.
  unfold get_location_by_id. split.
  - split.
    + intros [[i l] (Hi & Hid%strcmp0_true & _)%list_find_Some].
      apply list_elem_of_fmap. exists l. split; [done|].
      by eapply list_elem_of_lookup_2.
    + intros (l & -> & Hl)%list_elem_of_fmap.
      eapply (list_find_elem_of _ _ l); [done|]. apply strcmp0_refl.
  - intros i l (Hi & Hid%strcmp0_true & Hmin)%list_find_Some.
    split_and!; [done..|]. intros j l' Hj Hlt Heq.
    apply (Hmin j l' Hj Hlt). by apply strcmp0_true.
Qed.

Lemma get_location_by_id_first_witness :
  is_Some (get_location_by_id sample_world "cellar").
Proof.
  destruct (get_location_by_id_first sample_world "cellar") as [[_ H] _].
  apply H. compute_done.
Defined.

(** ** Movement *)

Lemma move_player_loop_case (game : GameState) (d d' : string) (es : list Exit) :
  strcasecmp0 d d' = true →
  ret_of (move_player_loop game d es) = ret_of (move_player_loop game d' es) ∧
  state_of (move_player_loop game d es) = state_of (move_player_loop game d' es).
Proof.
  intros Hd. induction es as [|x es IH]; simpl; [done|].
  rewrite (strcasecmp0_trans_l d d' (direction x) Hd).
  destruct (strcasecmp0 (direction x) d'); [|done].
  by destruct (get_location_by_id game (target_location x)) as [[j t]|].
Qed.

(** X3. The requested direction is read without regard to letter case: two
    directions that are equal up to case give the same result and the same
    state (only the text printed repeats the direction as typed). *)
Theorem move_player_case_insensitive (game : GameState) (d d' : string) :
  strcasecmp0 d d' = true →
  ret_of (move_player game d) = ret_of (move_player game d') ∧
  state_of (move_player game d) = state_of (move_player game d').
Proof.
  intros Hd. unfold move_player.
  destruct (get_current_location game) as [[i cur]|]; [|done].
  by apply move_player_loop_case.
Qed.

Lemma move_player_case_insensitive_witness :
  state_of (move_player sample_world "NoRtH") = state_of (move_player sample_world "north").
Proof.
  exact (proj2 (move_player_case_insensitive sample_world "NoRtH" "north" eq_refl)).
Defined.

Lemma set_visited_false_idemp (b : bool) (l : Location) :
  set_visited false (set_visited b l) = set_visited false l.
Proof. done. Qed.

Lemma move_player_loop_frame (game : GameState) (dir : string) (es : list Exit) :
  let game' := state_of (move_player_loop game dir es) in
  meta game' = meta game ∧ start_location game' = start_location game ∧
  inventory_items game' = inventory_items game ∧ game_flags game' = game_flags game ∧
  inventory (player game') = inventory (player game) ∧
  flags (player game') = flags (player game) ∧
  set_visited false <$> locations game' = set_visited false <$> locations game.
Proof.
  induction es as [|x es IH]; simpl; [done|].
  destruct (strcasecmp0 (direction x) dir); [|done].
  destruct (get_location_by_id game (target_location x)) as [[j t]|] eqn:Hj; [|done].
  simpl. split_and!; try done.
  apply list_find_Some in Hj as (Hj & _).
  rewrite list_fmap_insert, set_visited_false_idemp.
  apply list_insert_id. by rewrite list_lookup_fmap, Hj.
Qed.

(** X4. [move_player] touches nothing but the current location of the player
    and the visited marks: the meta data, the start location, the item
    catalogue, both flag tables and the inventory stay as they were, and so
    does the table of locations apart from visited. *)
Theorem move_player_frame (game : GameState) (dir : string) :
  let game' := state_of (move_player game dir) in
  meta game' = meta game ∧ start_location game' = start_location game ∧
  inventory_items game' = inventory_items game ∧ game_flags game' = game_flags game ∧
  inventory (player game') = inventory (player game) ∧
  flags (player game') = flags (player game) ∧
  set_visited false <$> locations game' = set_visited false <$> locations game.
Proof.
  unfold move_player.
  destruct (get_current_location game) as [[i cur]|]; [|done].
  apply move_player_loop_frame.
Qed.

(** ** Inventory *)

Lemma remove_item_loop_first (pre post : list string) (id : string) :
  id ∉ pre → remove_item_loop (pre ++ id :: post) id = Some (pre ++ post).
Proof.
  induction pre as [|x pre IH]; simpl; intros Hpre.
  - by rewrite strcmp0_refl.
  - apply not_elem_of_cons in Hpre as [Hne Hpre].
    assert (strcmp0 x id = false) as -> by (apply strcmp0_false; congruence).
    by rewrite IH.
Qed.

(** X5. [remove_item_from_inventory] takes out the first slot that holds the
    id and keeps the other slots in their order; nothing else in the state
    changes.  If the id was held twice, it is still held afterwards. *)
Theorem remove_item_first_occurrence (game : GameState) (id : string)
    (pre post : list string) :
  inventory (player game) = pre ++ id :: post → id ∉ pre →
  ret_of (remove_item_from_inventory game id) = true ∧
  state_of (remove_item_from_inventory game id)
    = set_player (set_inventory (pre ++ post) (player game)) game ∧
  (ret_of (has_item (state_of (remove_item_from_inventory game id)) id) = true
     ↔ id ∈ post).
Proof.
  intros Hinv Hpre. unfold remove_item_from_inventory.
  rewrite Hinv, remove_item_loop_first by done. split_and!; [done..|].
  unfold has_item, ret_of. simpl. rewrite has_item_loop_true. set_solver.
Qed.

Lemma remove_item_first_occurrence_witness :
  inventory (player (state_of (remove_item_from_inventory
     (set_player (set_inventory ["lamp"; "key"; "lamp"] (player sample_world)) sample_world)
     "lamp"))) = ["key"; "lamp"].
Proof.
  assert ("lamp" ∉ @nil string) as Hpre by compute_done.
  destruct (remove_item_first_occurrence
              (set_player (set_inventory ["lamp"; "key"; "lamp"] (player sample_world))
                 sample_world)
              "lamp" [] ["key"; "lamp"] eq_refl Hpre) as (_ & Hstate & _).
  by rewrite Hstate.
Defined.

(** X6. Adding an id that fits a slot and then removing it gives back the
    state from before the addition. *)
Theorem add_then_remove_restores (game : GameState) (id : string) :
  fits 64 id → ret_of (add_item_to_inventory game id) = true →
  ret_of (remove_item_from_inventory (state_of (add_item_to_inventory game id)) id)
    = true ∧
  state_of (remove_item_from_inventory (state_of (add_item_to_inventory game id)) id)
    = game.
Proof.
  intros Hfit. unfold add_item_to_inventory.
  destruct (MAX_INVENTORY_ITEMS <=? length (inventory (player game))); [done|].
  unfold has_item, ret_of at 1. simpl.
  destruct (has_item_loop (inventory (player game)) id) eqn:Hhas; [done|].
  intros _. simpl. rewrite safe_strcpy_fits by done.
  assert (id ∉ inventory (player game)) as Hout.
  { intros Hin%has_item_loop_true. congruence. }
  unfold remove_item_from_inventory. simpl.
  rewrite remove_item_loop_first by done. rewrite app_nil_r.
  split; [done|]. by destruct game as [? ? ? ? ? []].
Qed.

Lemma add_then_remove_restores_witness :
  state_of (remove_item_from_inventory
              (state_of (add_item_to_inventory sample_world "key")) "key")
    = sample_world.
Proof.
  assert (fits 64 "key") as Hfit by (unfold fits; simpl; lia).
  exact (proj2 (add_then_remove_restores sample_world "key" Hfit eq_refl)).
Defined.

Lemma remove_item_loop_sublist (inv inv' : list string) (id : string) :
  remove_item_loop inv id = Some inv' → inv' `sublist_of` inv.
Proof.
  revert inv'. induction inv as [|x inv IH]; simpl; intros inv'; [done|].
  destruct (strcmp0 x id).
  - intros [= <-]. by apply sublist_cons.
  - intros (r & Hr & ->)%fmap_Some. apply sublist_skip. by apply IH.
Qed.

Lemma remove_item_loop_NoDup_gone (inv inv' : list string) (id : string) :
  NoDup inv → remove_item_loop inv id = Some inv' → id ∉ inv'.
Proof.
  revert inv'. induction inv as [|x inv IH]; simpl; intros inv' Hnd; [done|].
  apply NoDup_cons in Hnd as [Hx Hnd]. destruct (strcmp0 x id) eqn:Hxid.
  - apply strcmp0_true in Hxid as ->. by intros [= <-].
  - apply strcmp0_false in Hxid. intros (r & Hr & ->)%fmap_Some.
    apply not_elem_of_cons. split; [congruence|]. by apply IH.
Qed.

(** X7. An inventory without repeated ids stays so: adding an id that fits a
    slot, removing, moving and setting flags all keep the ids distinct, and
    after a successful removal the id is no longer held. *)
Theorem inventory_stays_duplicate_free (game : GameState) :
  NoDup (inventory (player game)) →
  (∀ id, fits 64 id →
     NoDup (inventory (player (state_of (add_item_to_inventory game id))))) ∧
  (∀ id, NoDup (inventory (player (state_of (remove_item_from_inventory game id))))) ∧
  (∀ id, ret_of (remove_item_from_inventory game id) = true →
     ret_of (has_item (state_of (remove_item_from_inventory game id)) id) = false) ∧
  (∀ dir, NoDup (inventory (player (state_of (move_player game dir))))) ∧
  (∀ n v, NoDup (inventory (player (state_of (set_flag game n v))))).
Proof.
  intros Hnd. split_and!.
  - intros id Hfit. unfold add_item_to_inventory.
    destruct (MAX_INVENTORY_ITEMS <=? length (inventory (player game))); [done|].
    unfold has_item, ret_of at 1. simpl.
    destruct (has_item_loop (inventory (player game)) id) eqn:Hhas; [done|].
    simpl. rewrite safe_strcpy_fits by done. apply NoDup_app. split_and!; [done| |].
    + intros x Hx ->%list_elem_of_singleton. apply has_item_loop_true in Hx. congruence.
    + apply NoDup_singleton.
  - intros id. unfold remove_item_from_inventory.
    destruct (remove_item_loop (inventory (player game)) id) as [inv'|] eqn:Hrm;
      [|done].
    simpl. eapply sublist_NoDup; [done|]. by eapply remove_item_loop_sublist.
  - intros id. unfold remove_item_from_inventory.
    destruct (remove_item_loop (inventory (player game)) id) as [inv'|] eqn:Hrm;
      [|done].
    intros _. unfold has_item, ret_of. simpl. apply not_true_is_false.
    rewrite has_item_loop_true. by eapply remove_item_loop_NoDup_gone.
  - intros dir. by rewrite move_player_inventory.
  - intros n v. by rewrite set_flag_inventory.
Qed.

Lemma inventory_stays_duplicate_free_witness :
  NoDup (inventory (player (state_of (add_item_to_inventory sample_world "key")))) ∧
  ret_of (has_item (state_of (remove_item_from_inventory sample_world "lamp")) "lamp")
    = false.
Proof.
  assert (NoDup (inventory (player sample_world))) as Hnd by compute_done.
  assert (fits 64 "key") as Hfit by (unfold fits; simpl; lia).
  destruct (inventory_stays_duplicate_free sample_world Hnd) as (Hadd & _ & Hrm & _).
  split; [exact (Hadd "key" Hfit) | exact (Hrm "lamp" eq_refl)].
Defined.

(** ** Flags *)

Lemma update_flag_twice (fs fs1 : list (string * bool)) (n : string) (v1 v2 : bool) :
  update_flag fs n v1 = Some fs1 → update_flag fs1 n v2 = update_flag fs n v2.
Proof.
  revert fs1. induction fs as [|[k w] fs IH]; simpl; intros fs1; [done|].
  destruct (strcmp0 k n) eqn:Hk.
  - intros [= <-]. simpl. by rewrite Hk.
  - intros (r & Hr & ->)%fmap_Some. simpl. rewrite Hk. by rewrite (IH r Hr).
Qed.

Lemma update_flag_snoc (fs : list (string * bool)) (n : string) (v v' : bool) :
  n ∉ fs.*1 → update_flag (fs ++ [(n, v)]) n v' = Some (fs ++ [(n, v')]).
Proof.
  induction fs as [|[k w] fs IH]; simpl; intros Hn.
  - by rewrite strcmp0_refl.
  - apply not_elem_of_cons in Hn as [Hne Hn].
    assert (strcmp0 k n = false) as -> by (apply strcmp0_false; congruence).
    by rewrite IH.
Qed.

(** X8. For a name that fits a slot the last write wins: setting a flag twice
    leaves the state that the second call alone would have left. *)
Theorem set_flag_last_write_wins (game : GameState) (n : string) (v1 v2 : bool) :
  fits 64 n →
  state_of (set_flag (state_of (set_flag game n v1)) n v2)
    = state_of (set_flag game n v2).
Proof.
  intros Hfit. unfold set_flag at 2.
  destruct (update_flag (flags (player game)) n v1) as [fs1|] eqn:Hp1.
  { unfold set_flag. simpl. rewrite (update_flag_twice _ _ _ _ v2 Hp1).
    destruct (update_flag (flags (player game)) n v2) eqn:Hp2; [done|].
    apply update_flag_None in Hp2. apply (update_flag_None _ _ v1) in Hp2. congruence. }
  assert (n ∉ (flags (player game)).*1) as Hp by by eapply update_flag_None.
  assert (update_flag (flags (player game)) n v2 = None) as Hp2
    by by apply update_flag_None.
  destruct (update_flag (game_flags game) n v1) as [gs1|] eqn:Hg1.
  { unfold set_flag. simpl. rewrite Hp2, (update_flag_twice _ _ _ _ v2 Hg1).
    destruct (update_flag (game_flags game) n v2) eqn:Hg2; [done|].
    apply update_flag_None in Hg2. apply (update_flag_None _ _ v1) in Hg2. congruence. }
  assert (n ∉ (game_flags game).*1) as Hg by by eapply update_flag_None.
  assert (update_flag (game_flags game) n v2 = None) as Hg2
    by by apply update_flag_None.
  destruct (length (flags (player game)) <? MAX_FLAGS) eqn:Hlen.
  - unfold set_flag. simpl. rewrite safe_strcpy_fits by done.
    rewrite update_flag_snoc by done. by rewrite Hp2, Hg2, Hlen.
  - done.
Qed.

Lemma set_flag_last_write_wins_witness :
  state_of (set_flag (state_of (set_flag sample_world "lamp_lit" true)) "lamp_lit" false)
    = state_of (set_flag sample_world "lamp_lit" false).
Proof.
  apply set_flag_last_write_wins. unfold fits. simpl. lia.
Defined.

(** X9. [set_flag] changes the flag tables only, and in them only the flag it
    names: every flag of another name, other than the name cut to the 63
    bytes of a slot, reads as before. *)
Theorem set_flag_frame (game : GameState) (n : string) (v : bool) :
  let game' := state_of (set_flag game n v) in
  meta game' = meta game ∧ start_location game' = start_location game ∧
  locations game' = locations game ∧ inventory_items game' = inventory_items game ∧
  inventory (player game') = inventory (player game) ∧
  current_location (player game') = current_location (player game) ∧
  ∀ m, m ≠ n → m ≠ safe_strcpy (Some n) 64 →
       ret_of (get_flag game' m) = ret_of (get_flag game m).
Proof.
  unfold set_flag.
  destruct (update_flag (flags (player game)) n v) as [fs|] eqn:Hp.
  { simpl. split_and!; try done. intros m Hm _.
    assert (n ∈ (flags (player game)).*1) as Hin.
    { apply dec_stable. intros Hno. apply (update_flag_None _ _ v) in Hno. congruence. }
    destruct (update_flag_Some _ _ v Hin) as (fs' & Hfs' & _ & _ & Hother).
    assert (fs' = fs) as -> by congruence.
    unfold get_flag. simpl. rewrite Hother by done.
    destruct (find_flag (flags (player game)) m); [done|].
    by destruct (find_flag (game_flags game) m). }
  destruct (update_flag (game_flags game) n v) as [gs|] eqn:Hg.
  { simpl. split_and!; try done. intros m Hm _.
    assert (n ∈ (game_flags game).*1) as Hin.
    { apply dec_stable. intros Hno. apply (update_flag_None _ _ v) in Hno. congruence. }
    destruct (update_flag_Some _ _ v Hin) as (gs' & Hgs' & _ & _ & Hother).
    assert (gs' = gs) as -> by congruence.
    unfold get_flag. simpl. rewrite Hother by done.
    destruct (find_flag (flags (player game)) m); [done|].
    by destruct (find_flag (game_flags game) m). }
  destruct (length (flags (player game)) <? MAX_FLAGS); [|done].
  simpl. split_and!; try done. intros m _ Hm.
  unfold get_flag. simpl. rewrite find_flag_snoc.
  assert (strcmp0 (safe_strcpy (Some n) 64) m = false) as ->
    by (apply strcmp0_false; congruence).
  destruct (find_flag (flags (player game)) m); [done|].
  by destruct (find_flag (game_flags game) m).
Qed.

(** X10. [check_location_requirements] answers true exactly when every
    required flag reads its required value, and leaves the state as it was; a
    location without requirements is always accessible. *)
Theorem check_location_requirements_all (game : GameState) (l : Location) :
  (ret_of (check_location_requirements game l) = true ↔
     Forall (λ r, ret_of (get_flag game r.1) = r.2) (flags_required l)) ∧
  state_of (check_location_requirements game l) = game ∧
  (flags_required l = [] → ret_of (check_location_requirements game l) = true).
Proof.
  unfold check_location_requirements, ret_of at 1 3, state_of. simpl.
  split_and!; [|done|by intros ->].
  induction (flags_required l) as [|[n v] req IH]; simpl.
  - split; [constructor|done].
  - rewrite Forall_cons. simpl.
    destruct (ret_of (get_flag game n)), v; simpl; rewrite ?IH; naive_solver.
Qed.

Lemma check_location_requirements_all_witness :
  ret_of (check_location_requirements sample_world hall) = true.
Proof.
  destruct (check_location_requirements_all sample_world hall) as (_ & _ & H).
  exact (H eq_refl).
Defined.

Lemma parse_locations_loop_no_flags (ms : list (string * json)) (acc : list Location) :
  Forall (λ l, flags_required l = [] ∧ flags_set l = []) acc →
  Forall (λ l, flags_required l = [] ∧ flags_set l = []) (parse_locations_loop ms acc).
Proof.
  revert acc. induction ms as [|[k v] ms IH]; intros acc Hacc; [done|].
  cbn [parse_locations_loop]. destruct (MAX_LOCATIONS <=? length acc); [done|].
  destruct (parse_location v zero_Location k) as [[] l] eqn:Hparse; [|by apply IH].
  apply IH, Forall_app. split; [done|]. constructor; [|constructor].
  destruct v; simpl in Hparse; try discriminate Hparse; by injection Hparse as <-.
Qed.

(** X11. The loader fills in no flag requirement: every location of a loaded
    world passes [check_location_requirements], whatever the flags of the
    state it is checked against. *)
Theorem loaded_locations_have_no_requirements (parsed : option json)
    (game : GameState) (l : Location) :
  load_game parsed = Some game → l ∈ locations game →
  flags_required l = [] ∧ flags_set l = [] ∧ game_flags game = [] ∧
  flags (player game) = [] ∧
  ∀ game', ret_of (check_location_requirements game' l) = true.
Proof.
  unfold load_game. destruct parsed as [doc|]; [|done].
  destruct (is_null doc); [done|]. intros [= <-] Hl.
  assert (flags_required l = [] ∧ flags_set l = []) as [Hreq Hset].
  { simpl in Hl. unfold load_locations in Hl.
    destruct (json_object_object_get_ex doc "locations") as [[| | | | |ms]|];
      simpl in Hl; try by apply elem_of_nil in Hl.
    pose proof (parse_locations_loop_no_flags ms [] (Forall_nil_2 _)) as Hall.
    rewrite Forall_forall in Hall. by apply Hall. }
  split_and!; [done..| |].
  - simpl. unfold load_player.
    by destruct (json_object_object_get_ex doc "player").
  - intros game'. unfold check_location_requirements, ret_of. simpl. by rewrite Hreq.
Qed.

Lemma loaded_locations_have_no_requirements_witness :
  ret_of (check_location_requirements sample_world
            (parse_location (JObject []) zero_Location "room2").2) = true.
Proof.
  assert ((parse_location (JObject []) zero_Location "room2").2
            ∈ locations (load_document two_rooms_doc)) as Hl
    by (vm_compute; apply list_elem_of_In; right; left; reflexivity).
  destruct (loaded_locations_have_no_requirements (Some two_rooms_doc)
              (load_document two_rooms_doc) _ eq_refl Hl) as (_ & _ & _ & _ & H).
  exact (H sample_world).
Defined.

Lemma set_flag_frame_witness :
  ret_of (get_flag (state_of (set_flag sample_world "lamp_lit" true)) "door_open") = true.
Proof.
  destruct (set_flag_frame sample_world "lamp_lit" true) as (_ & _ & _ & _ & _ & _ & H).
  assert ("door_open" ≠ "lamp_lit") as H1 by done.
  assert ("door_open" ≠ safe_strcpy (Some "lamp_lit") 64) as H2 by done.
  rewrite (H "door_open" H1 H2). reflexivity.
Defined.

(** ** What the loops of the loader keep *)

Lemma take_app_full {A} (n : nat) (l k : list A) : n ≤ length l → take n (l ++ k) = take n l.
Proof. intros Hn. by rewrite take_app_le. Qed.

Lemma parse_exits_loop_acc (ms : list (string * json)) (acc : list Exit) :
  length acc ≤ MAX_EXITS →
  parse_exits_loop ms acc = take MAX_EXITS (acc ++ omap exit_of_member ms).
Proof.
  revert acc. induction ms as [|[k v] ms IH]; intros acc Hacc.
  - simpl. by rewrite app_nil_r, take_ge.
  - cbn [parse_exits_loop]. destruct (MAX_EXITS <=? length acc) eqn:Hcap.
    + apply Nat.leb_le in Hcap. rewrite take_app_full by done. by rewrite take_ge.
    + apply Nat.leb_gt in Hcap.
      destruct v; simpl; try by apply IH.
      rewrite IH by (rewrite length_app; simpl; lia).
      unfold exit_of_member at 2. simpl. by rewrite <-app_assoc.
Qed.

(** X12. The exits of a location are the first [MAX_EXITS] = 8 members of
    the exits object whose value is a string, in the order of the document,
    each with its direction cut to 31 bytes and its target cut to 63; members
    with another value are skipped and members beyond the eighth are dropped
    without notice. *)
Theorem parse_exits_loop_take (ms : list (string * json)) :
  parse_exits_loop ms [] = take MAX_EXITS (omap exit_of_member ms) ∧
  (length (omap exit_of_member ms) ≤ MAX_EXITS →
   parse_exits_loop ms [] = omap exit_of_member ms).
Proof.
  rewrite parse_exits_loop_acc by (simpl; lia). simpl. split; [done|].
  intros Hlen. by rewrite take_ge.
Qed.

Lemma parse_exits_loop_take_witness :
  parse_exits_loop [("north", JString "library"); ("locked", JBool true)] []
    = [ {| direction := "north"; target_location := "library" |} ].
Proof.
  destruct (parse_exits_loop_take [("north", JString "library"); ("locked", JBool true)])
    as [_ H].
  rewrite H; [reflexivity|]. simpl. unfold MAX_EXITS. lia.
Defined.

Lemma parse_ids_loop_acc (cap : nat) (els : list json) (acc : list string) :
  length acc ≤ cap →
  parse_ids_loop cap els acc = take cap (acc ++ omap id_of_element els).
Proof.
  revert acc. induction els as [|el els IH]; intros acc Hacc.
  - simpl. by rewrite app_nil_r, take_ge.
  - cbn [parse_ids_loop]. destruct (cap <=? length acc) eqn:Hcap.
    + apply Nat.leb_le in Hcap. rewrite take_app_full by done. by rewrite take_ge.
    + apply Nat.leb_gt in Hcap.
      destruct el; simpl; try by apply IH.
      rewrite IH by (rewrite length_app; simpl; lia).
      by rewrite <-app_assoc.
Qed.

(** X13. An array of ids (the items of a location, the inventory of the
    player) is read as its first [cap] string elements in order, each cut to
    63 bytes; other elements are skipped, and an id that occurs twice in the
    document is kept twice. *)
Theorem parse_ids_loop_take (cap : nat) (els : list json) :
  parse_ids_loop cap els [] = take cap (omap id_of_element els) ∧
  (∀ ids, Forall (fits 64) ids → length ids ≤ cap →
     parse_ids_loop cap (JString <$> ids) [] = ids).
Proof.
  split.
  - by rewrite parse_ids_loop_acc by (simpl; lia).
  - intros ids Hfit Hlen. rewrite parse_ids_loop_acc by (simpl; lia). simpl.
    assert (omap id_of_element (JString <$> ids) = ids) as ->.
    { induction Hfit as [|x ids Hx _ IH]; simpl; [done|].
      rewrite safe_strcpy_fits by done. f_equal. apply IH. simpl in Hlen. lia. }
    by rewrite take_ge.
Qed.

Lemma parse_ids_loop_take_witness :
  parse_ids_loop MAX_INVENTORY_ITEMS (JString <$> ["lamp"; "key"; "lamp"]) []
    = ["lamp"; "key"; "lamp"].
Proof.
  destruct (parse_ids_loop_take MAX_INVENTORY_ITEMS []) as [_ H].
  apply H.
  - repeat constructor; unfold fits; simpl; lia.
  - simpl. unfold MAX_INVENTORY_ITEMS. lia.
Defined.

Lemma parse_locations_loop_acc (ms : list (string * json)) (acc : list Location) :
  length acc ≤ MAX_LOCATIONS →
  parse_locations_loop ms acc
    = take MAX_LOCATIONS
        (acc ++ ((λ m, (parse_location m.2 zero_Location m.1).2)
                   <$> filter (λ m, is_null m.2 = false) ms)).
Proof.
  revert acc. induction ms as [|[k v] ms IH]; intros acc Hacc.
  - simpl. by rewrite app_nil_r, take_ge.
  - cbn [parse_locations_loop]. destruct (MAX_LOCATIONS <=? length acc) eqn:Hcap.
    + apply Nat.leb_le in Hcap. rewrite take_app_full by done. by rewrite take_ge.
    + apply Nat.leb_gt in Hcap. rewrite filter_cons.
      destruct v; simpl;
        try (rewrite IH by (rewrite length_app; simpl; lia); by rewrite <-app_assoc).
      by apply IH.
Qed.

Lemma parse_location_id (v : json) (k : string) :
  is_null v = false →
  loc_id (parse_location v zero_Location k).2 = safe_strcpy (Some k) 64.
Proof. by destruct v. Qed.

(** X14. The table of locations holds the first [MAX_LOCATIONS] = 256 members
    of the locations object that are not null, in the order of the document;
    the id of each is its key, cut to 63 bytes. *)
Theorem parse_locations_loop_take (ms : list (string * json)) :
  parse_locations_loop ms []
    = take MAX_LOCATIONS
        ((λ m, (parse_location m.2 zero_Location m.1).2)
           <$> filter (λ m, is_null m.2 = false) ms) ∧
  loc_id <$> parse_locations_loop ms []
    = take MAX_LOCATIONS
        ((λ m, safe_strcpy (Some m.1) 64) <$> filter (λ m, is_null m.2 = false) ms).
Proof.
  rewrite parse_locations_loop_acc by (simpl; lia). simpl. split; [done|].
  rewrite fmap_take, <-list_fmap_compose. f_equal.
  apply Forall_fmap_ext, Forall_forall.
  intros [k v] [Hnull _]%list_elem_of_filter. simpl in *.
  by apply parse_location_id.
Qed.

Lemma parse_locations_loop_take_witness :
  loc_id <$> parse_locations_loop
               [("start", JObject []); ("void", JNull); ("room2", JObject [])] []
    = ["start"; "room2"].
Proof.
  destruct (parse_locations_loop_take
              [("start", JObject []); ("void", JNull); ("room2", JObject [])]) as [_ H].
  rewrite H. reflexivity.
Defined.

Lemma NoDup_fmap_same {A B} (f : A → B) (l : list A) (x y : A) :
  NoDup (f <$> l) → x ∈ l → y ∈ l → f x = f y → x = y.
Proof.
  induction l as [|z l IH]; simpl; intros Hnd Hx Hy Hf; [by apply elem_of_nil in Hx|].
  apply NoDup_cons in Hnd as [Hz Hnd].
  apply elem_of_cons in Hx as [->|Hx]; apply elem_of_cons in Hy as [->|Hy].
  - done.
  - exfalso. apply Hz. rewrite Hf. by apply list_elem_of_fmap_2.
  - exfalso. apply Hz. rewrite <-Hf. by apply list_elem_of_fmap_2.
  - by apply IH.
Qed.

(** X15. Looking a location of the document up after loading: if the
    locations object has at most [MAX_LOCATIONS] members, then for each member
    that is not null, [get_location_by_id] under its key cut to 63 bytes
    returns the first location of the table with that id, which was loaded
    from a member whose key has the same first 63 bytes.  When the keys cut to
    63 bytes are pairwise distinct, it is the location loaded from the member
    itself; otherwise a later member is hidden by an earlier one. *)
Theorem loaded_location_is_found (doc : json) (game : GameState)
    (ms : list (string * json)) (k : string) (v : json) :
  load_game (Some doc) = Some game →
  json_object_object_get_ex doc "locations" = Some (JObject ms) →
  length ms ≤ MAX_LOCATIONS →
  (k, v) ∈ ms → is_null v = false →
  ∃ i l,
    get_location_by_id game (safe_strcpy (Some k) 64) = Some (i, l) ∧
    loc_id l = safe_strcpy (Some k) 64 ∧
    (∀ j l', locations game !! j = Some l' → j < i →
       loc_id l' ≠ safe_strcpy (Some k) 64) ∧
    (∃ k' v', (k', v') ∈ ms ∧ is_null v' = false ∧
              safe_strcpy (Some k') 64 = safe_strcpy (Some k) 64 ∧
              l = (parse_location v' zero_Location k').2) ∧
    (NoDup ((λ m, safe_strcpy (Some m.1) 64) <$> filter (λ m, is_null m.2 = false) ms) →
     l = (parse_location v zero_Location k).2).
Proof.
  unfold load_game. destruct (is_null doc); [done|]. intros [= <-] Hms Hlen Hkv Hv.
  unfold get_location_by_id, load_document. simpl. unfold load_locations.
  rewrite Hms, parse_locations_loop_acc by (simpl; lia). simpl.
  rewrite take_ge by (rewrite length_fmap; etrans; [apply length_filter|done]).
  assert ((k, v) ∈ filter (λ m : string * json, is_null m.2 = false) ms) as Hin
    by by apply list_elem_of_filter.
  destruct (list_find_elem_of
              (λ l, strcmp0 (loc_id l) (safe_strcpy (Some k) 64) = true)
              ((λ m, (parse_location m.2 zero_Location m.1).2)
                 <$> filter (λ m : string * json, is_null m.2 = false) ms)
              (parse_location v zero_Location k).2) as [[i l] Hfind].
  { apply list_elem_of_fmap. by exists (k, v). }
  { apply strcmp0_true. by apply parse_location_id. }
  exists i, l. split; [done|].
  apply list_find_Some in Hfind as (Hi & Hid%strcmp0_true & Hmin).
  apply list_lookup_fmap_Some in Hi as ([k' v'] & -> & Hi'). simpl in *.
  apply list_elem_of_lookup_2 in Hi'.
  pose proof Hi' as [Hnull' Hin']%list_elem_of_filter. simpl in Hnull'.
  assert (safe_strcpy (Some k') 64 = safe_strcpy (Some k) 64) as Hsame
    by by rewrite <-Hid, parse_location_id.
  split_and!.
  - done.
  - intros j l' Hj Hlt Heq. apply (Hmin j l' Hj Hlt). by apply strcmp0_true.
  - by exists k', v'.
  - intros Hnd.
    assert ((k', v') = (k, v)) as [= -> ->]; [|done].
    by apply (NoDup_fmap_same (λ m : string * json, safe_strcpy (Some m.1) 64)
                (filter (λ m : string * json, is_null m.2 = false) ms)).
Qed.

Lemma loaded_location_is_found_witness :
  ∃ i, get_location_by_id (load_document two_rooms_doc) "room2"
         = Some (i, (parse_location (JObject []) zero_Location "room2").2).
Proof.
  assert (length [ ("start", JObject [ ("exits", JObject [ ("north", JString "room2") ]) ]);
                   ("room2", JObject []) ] ≤ MAX_LOCATIONS) as Hlen
    by (simpl; unfold MAX_LOCATIONS; lia).
  assert (("room2", JObject [])
            ∈ [ ("start", JObject [ ("exits", JObject [ ("north", JString "room2") ]) ]);
                ("room2", JObject []) ]) as Hin
    by (apply list_elem_of_In; right; left; reflexivity).
  destruct (loaded_location_is_found two_rooms_doc (load_document two_rooms_doc)
              _ "room2" (JObject []) eq_refl eq_refl Hlen Hin eq_refl)
    as (i & l & Hfind & _ & _ & _ & Hself).
  exists i. rewrite <-Hself; [exact Hfind|]. vm_compute. repeat constructor.
  - intros [Hx|Hx]%elem_of_cons; [discriminate Hx|by apply elem_of_nil in Hx].
  - apply not_elem_of_nil.
Defined.

(** Two keys that share their first 63 bytes: the lookup under the second
    returns the location of the first. *)
Example colliding_keys_find_the_first :
  (λ r, loc_title r.2)
    <$> get_location_by_id (load_document colliding_doc)
          (safe_strcpy (Some (str_take 63 long_id +:+ "b")) 64)
    = Some "first" ∧
  loc_title <$> locations (load_document colliding_doc) = ["first"; "second"].
Proof. by vm_compute. Qed.




Lemma load_game_wf_witness :
  ∃ game, load_game (Some readme_doc) = Some game ∧ wf_GameState game.
Proof.
  exists (load_document readme_doc). split; [reflexivity|].
  exact (load_game_wf (Some readme_doc) (load_document readme_doc) eq_refl).
Defined.

Lemma operations_keep_wf_witness :
  wf_GameState (state_of (move_player sample_world "north")) ∧
  wf_GameState (state_of (set_flag sample_world "lamp_lit" true)).
Proof.
  destruct (operations_keep_wf sample_world sample_world_wf) as (Hmove & _ & _ & Hset & _).
  split; [exact (Hmove "north") | exact (Hset "lamp_lit" true)].
Defined.

(** ** The command handler and the main loop *)

Lemma move_player_located (game : GameState) (dir : string) :
  wf_GameState game → is_Some (get_current_location game) →
  is_Some (get_current_location (state_of (move_player game dir))).
Proof.
  intros Hwf Hcur. destruct (ret_of (move_player game dir)) eqn:Hret.
  - revert Hret. unfold move_player.
    destruct (get_current_location game) as [[i cur]|] eqn:Hi; [|done].
    intros Hret.
    destruct (move_player_loop_arrival game dir (exits cur)) as (j & l & -> & _);
      [|done|done].
    apply Forall_forall. intros e He. by eapply wf_exit_of_current.
  - revert Hret. unfold move_player.
    destruct (get_current_location game) as [[i cur]|] eqn:Hi; [|done].
    intros Hret. by rewrite move_player_loop_failure, Hi.
Qed.

Lemma move_player_wf (game : GameState) (dir : string) :
  wf_GameState game → wf_GameState (state_of (move_player game dir)).
Proof.
  intros Hwf. unfold move_player.
  destruct (get_current_location game) as [[i cur]|]; [|done].
  by apply move_player_loop_wf.
Qed.

Section LoopProperties.

Variables Surface Texture : Type.
Variable IMG_Load : string → option Surface.
Variable SDL_CreateTextureFromSurface : Surface → option Texture.
Variables IMG_GetError SDL_GetError : string.

Local Abbreviation handle' :=
  (handle_input Surface Texture IMG_Load SDL_CreateTextureFromSurface
     IMG_GetError SDL_GetError).
Local Abbreviation step :=
  (process_event Surface Texture IMG_Load SDL_CreateTextureFromSurface
     IMG_GetError SDL_GetError).
Local Abbreviation steps :=
  (process_events Surface Texture IMG_Load SDL_CreateTextureFromSurface
     IMG_GetError SDL_GetError).

Lemma handle_input_game (input : string) (p : Process Texture) (game : GameState) :
  game_state _ p = Some game →
  game_state _ (handle' input p) = Some game ∨
  ∃ d, game_state _ (handle' input p) = Some (state_of (move_player game d)).
Proof.
  intros Hg. destruct (strncmp0 input "go " 3 || strncmp0 input "move " 5) eqn:Hpre.
  - right. exists (direction_of input).
    by destruct (handle_input_move Surface Texture IMG_Load SDL_CreateTextureFromSurface
                   IMG_GetError SDL_GetError (direction_of input) input p game Hg Hpre
                   eq_refl) as (? & _).
  - left. unfold handle_input. rewrite Hg, Hpre.
    destruct (strcmp0 input "look" || strcmp0 input "l"); [done|].
    destruct (strcmp0 input "inventory" || strcmp0 input "i"); [done|].
    destruct (strcmp0 input "help"); [done|].
    by destruct (strcmp0 input "quit" || strcmp0 input "exit").
Qed.

(** X19. No command strands the player or breaks the bounds of the state: if
    a game is loaded, respects the bounds of the struct declarations and has
    the player in a location of the table, the same holds after
    [handle_input] on any line; the inventory, the flags and the ids of the
    locations are as before. *)
Theorem handle_input_keeps_game_sound (input : string) (p : Process Texture)
    (game : GameState) :
  game_state _ p = Some game → wf_GameState game →
  is_Some (get_current_location game) →
  ∃ game', game_state _ (handle' input p) = Some game' ∧ wf_GameState game' ∧
           is_Some (get_current_location game') ∧
           inventory (player game') = inventory (player game) ∧
           flags (player game') = flags (player game) ∧
           game_flags game' = game_flags game ∧
           loc_id <$> locations game' = loc_id <$> locations game.
Proof.
  intros Hg Hwf Hcur. destruct (handle_input_game input p game Hg) as [->|[d ->]].
  - by exists game.
  - exists (state_of (move_player game d)).
    assert (let game' := state_of (move_player game d) in
            meta game' = meta game ∧ start_location game' = start_location game ∧
            inventory_items game' = inventory_items game ∧
            game_flags game' = game_flags game ∧
            inventory (player game') = inventory (player game) ∧
            flags (player game') = flags (player game) ∧
            set_visited false <$> locations game' = set_visited false <$> locations game)
      as (_ & _ & _ & Hgf & Hinv & Hfl & Hlocs).
    { unfold move_player.
      destruct (get_current_location game) as [[i cur]|]; [|done].
      apply move_player_loop_frame. }
    split_and!; [done|by apply move_player_wf|by apply move_player_located|done..|].
    apply (f_equal (fmap loc_id)) in Hlocs.
    by rewrite <-!list_fmap_compose in Hlocs.
Qed.

Lemma str_append_length (a b : string) :
  String.length (a +:+ b) = String.length a + String.length b.
Proof. induction a as [|c a IH]; [done|]. exact (f_equal S IH). Qed.

Lemma str_append_assoc (a b c : string) : (a +:+ b) +:+ c = a +:+ (b +:+ c).
Proof. induction a as [|x a IH]; [done|]. exact (f_equal (String x) IH). Qed.

Lemma str_append_nil_r (a : string) : a +:+ "" = a.
Proof. induction a as [|x a IH]; [done|]. exact (f_equal (String x) IH). Qed.

(** X20. The input line stays inside its buffer unless a text event brings
    more bytes than are left: after every event that is handled without
    writing outside [input_buffer], [input_length] is the length of the string
    in the buffer and is below [MAX_INPUT_LENGTH]; the only event that writes
    outside is a text that would make the line 256 bytes or longer, and a
    text of one byte never does. *)
Theorem process_event_keeps_line (e : Event) (p : Process Texture) (line : InputLine) :
  input_length line = String.length (input_buffer line) →
  input_length line < MAX_INPUT_LENGTH →
  (∀ p' line',
     step e (p, line) = Some (p', line') →
     input_length line' = String.length (input_buffer line') ∧
     input_length line' < MAX_INPUT_LENGTH) ∧
  (step e (p, line) = None ↔
     ∃ text, e = SDL_TEXTINPUT text ∧ input_length line < MAX_INPUT_LENGTH - 1 ∧
             MAX_INPUT_LENGTH ≤ input_length line + String.length text) ∧
  (∀ text, e = SDL_TEXTINPUT text → String.length text ≤ 1 →
     is_Some (step e (p, line))).
Proof.
  intros Hlen Hlt. unfold MAX_INPUT_LENGTH in *.
  assert (∀ st : Process Texture * InputLine,
            st.2 = line →
            (∀ p' line', Some st = Some (p', line') →
               input_length line' = String.length (input_buffer line') ∧
               input_length line' < 256)) as Hsame.
  { intros [p0 l0] Hst p' line' [= <- <-]. simpl in Hst. by subst l0. }
  destruct e as [|[| |]|text|]; simpl.
  - split_and!; [by apply Hsame| |done]. split; [done|]. by intros (? & ? & _).
  - destruct (0 <? input_length line) eqn:Hpos.
    + unfold put_nul, MAX_INPUT_LENGTH.
      assert ((input_length line <? 256) = true) as -> by by apply Nat.ltb_lt.
      simpl. split_and!; [|split; [done|by intros (? & ? & _)]|done].
      intros ? ? [= <- <-]. simpl. split; [done|lia].
    + split_and!; [by apply Hsame| |done]. split; [done|]. by intros (? & ? & _).
  - destruct (0 <? input_length line) eqn:Hpos.
    + apply Nat.ltb_lt in Hpos. unfold put_nul, MAX_INPUT_LENGTH.
      assert ((input_length line - 1 <? 256) = true) as -> by (apply Nat.ltb_lt; lia).
      simpl. split_and!; [|split; [done|by intros (? & ? & _)]|done].
      intros ? ? [= <- <-]. simpl. rewrite str_take_length_min. lia.
    + split_and!; [by apply Hsame| |done]. split; [done|]. by intros (? & ? & _).
  - split_and!; [by apply Hsame| |done]. split; [done|]. by intros (? & ? & _).
  - unfold strcat, MAX_INPUT_LENGTH.
    destruct (input_length line <? 255) eqn:Hroom.
    + apply Nat.ltb_lt in Hroom.
      destruct (String.length (input_buffer line) + String.length text <? 256) eqn:Hfit;
        simpl.
      * apply Nat.ltb_lt in Hfit. split_and!.
        -- intros ? ? [= <- <-]. simpl. rewrite str_append_length. lia.
        -- split; [done|]. intros (t & [= <-] & _ & Hover). lia.
        -- done.
      * apply Nat.ltb_ge in Hfit. split_and!; [done| |].
        -- split; [|done]. intros _. exists text. split_and!; [done|lia|lia].
        -- intros t [= <-] Hone. lia.
    + apply Nat.ltb_ge in Hroom. split_and!; [by apply Hsame| |done].
      split; [done|]. intros (t & _ & Hlt' & _). lia.
  - split_and!; [by apply Hsame| |done]. split; [done|]. by intros (? & ? & _).
Qed.

Lemma typing_steps (s buf : string) (p : Process Texture) :
  String.length buf + String.length s < MAX_INPUT_LENGTH →
  steps (typing s) (p, {| input_buffer := buf; input_length := String.length buf |})
    = Some (p, {| input_buffer := buf +:+ s;
                  input_length := String.length (buf +:+ s) |}).
Proof.
  revert buf. induction s as [|c s IH]; intros buf Hlen; simpl.
  - by rewrite str_append_nil_r.
  - simpl in Hlen. unfold MAX_INPUT_LENGTH in *. unfold strcat, MAX_INPUT_LENGTH. simpl.
    assert ((String.length buf <? 255) = true) as -> by (apply Nat.ltb_lt; lia).
    assert ((String.length buf + 1 <? 256) = true) as -> by (apply Nat.ltb_lt; lia).
    simpl.
    assert (String.length buf + 1 = String.length (buf +:+ String c "")) as ->
      by (rewrite str_append_length; simpl; lia).
    rewrite IH by (rewrite str_append_length; simpl; lia).
    by rewrite str_append_assoc.
Qed.

(** X21. A line typed one byte at a time and ended with Return is the line
    [handle_input] receives, and the input line is empty afterwards, for
    every line of 1 to 255 bytes; Return on an empty line does nothing. *)
Theorem typed_line_is_submitted (s : string) (p : Process Texture) :
  let empty := {| input_buffer := ""; input_length := 0 |} in
  (0 < String.length s → String.length s < MAX_INPUT_LENGTH →
   steps (typing s ++ [SDL_KEYDOWN SDLK_RETURN]) (p, empty)
     = Some (handle' s p, empty)) ∧
  step (SDL_KEYDOWN SDLK_RETURN) (p, empty) = Some (p, empty).
Proof.
  intros empty. split; [|done]. intros Hpos Hlen.
  assert (∀ evs evs' st,
            steps (evs ++ evs') st = st' ← steps evs st; steps evs' st') as Happ.
  { induction evs as [|e evs IH]; intros evs' st; simpl; [done|].
    destruct (step e st) as [st'|]; simpl; [apply IH|done]. }
  rewrite Happ. unfold empty.
  change 0 with (String.length "") at 1.
  rewrite typing_steps by (simpl; lia). simpl.
  change ("" +:+ s) with s.
  assert ((0 <? String.length s) = true) as -> by by apply Nat.ltb_lt.
  unfold put_nul.
  assert ((String.length s <? MAX_INPUT_LENGTH) = true) as -> by by apply Nat.ltb_lt.
  simpl. by rewrite str_take_all.
Qed.

End LoopProperties.

Lemma handle_input_keeps_game_sound_witness :
  ∃ game', game_state _ (submit "go north" (boot two_rooms_doc)) = Some game' ∧
           wf_GameState game' ∧ is_Some (get_current_location game').
Proof.
  assert (wf_GameState (load_document two_rooms_doc)) as Hwf.
  { apply (load_game_wf (Some two_rooms_doc)). reflexivity. }
  assert (is_Some (get_current_location (load_document two_rooms_doc))) as Hcur
    by by eexists.
  destruct (handle_input_keeps_game_sound unit unit (λ _, None) (λ _, None) "" ""
              "go north" (boot two_rooms_doc) (load_document two_rooms_doc)
              eq_refl Hwf Hcur) as (game' & Hg & Hwf' & Hcur' & _).
  by exists game'.
Defined.

Lemma process_event_keeps_line_witness :
  is_Some (process_event unit unit (λ _, None) (λ _, None) "" ""
             (SDL_TEXTINPUT "n") (boot two_rooms_doc,
                                  {| input_buffer := "go "; input_length := 3 |})).
Proof.
  assert (3 < MAX_INPUT_LENGTH) as Hlt by (unfold MAX_INPUT_LENGTH; lia).
  destruct (process_event_keeps_line unit unit (λ _, None) (λ _, None) "" ""
              (SDL_TEXTINPUT "n") (boot two_rooms_doc)
              {| input_buffer := "go "; input_length := 3 |} eq_refl Hlt)
    as (_ & _ & H).
  apply (H "n" eq_refl). simpl. lia.
Defined.

Lemma typed_line_is_submitted_witness :
  process_events unit unit (λ _, None) (λ _, None) "" ""
    (typing "go north" ++ [SDL_KEYDOWN SDLK_RETURN])
    (boot two_rooms_doc, {| input_buffer := ""; input_length := 0 |})
  = Some (submit "go north" (boot two_rooms_doc),
          {| input_buffer := ""; input_length := 0 |}).
Proof.
  destruct (typed_line_is_submitted unit unit (λ _, None) (λ _, None) "" ""
              "go north" (boot two_rooms_doc)) as [H _].
  apply H; [simpl; lia|]. unfold MAX_INPUT_LENGTH. simpl. lia.
Defined.

(** ** The line of exits *)

Lemma concat_empty_cons (x : string) (xs : list string) :
  String.concat "" (x :: xs) = x +:+ String.concat "" xs.
Proof.
  destruct xs as [|y xs]; [by rewrite str_append_nil_r|done].
Qed.

Lemma concat_comma (d : string) (ds : list string) :
  String.concat ", " (d :: ds) = d +:+ String.concat "" ((λ x, ", " +:+ x) <$> ds).
Proof.
  revert d. induction ds as [|e ds IH]; intros d.
  - by rewrite str_append_nil_r.
  - by rewrite fmap_cons, concat_empty_cons, str_append_assoc, <-IH.
Qed.

Lemma strcat_fits (cap : nat) (a b : string) :
  String.length a + String.length b < cap → strcat cap a b = Some (a +:+ b).
Proof. unfold strcat. intros Hlt. by apply Nat.ltb_lt in Hlt as ->. Qed.

Lemma exits_text_loop_rest (es : list Exit) (i : nat) (text : string) :
  0 < i → String.length text + 31 * length es ≤ 255 →
  Forall (λ x, String.length (direction x) ≤ 29) es →
  exits_text_loop es i text
    = Some (text +:+ String.concat "" ((λ x, ", " +:+ x) <$> (direction <$> es))).
Proof.
  intros Hi. revert i Hi text.
  induction es as [|e es IH]; intros i Hi text Hlen Hall.
  - cbn. by rewrite str_append_nil_r.
  - apply Forall_cons in Hall as [He Hall]. rewrite length_cons in Hlen.
    rewrite !fmap_cons, concat_empty_cons.
    cbn [exits_text_loop].
    assert ((0 <? i) = true) as -> by by apply Nat.ltb_lt.
    assert (String.length ", " = 2) as Hcomma by done.
    rewrite strcat_fits by lia. cbn [mbind option_bind].
    rewrite strcat_fits by (rewrite str_append_length; lia). cbn [mbind option_bind].
    rewrite IH; [|lia| |done].
    + by rewrite !str_append_assoc.
    + rewrite !str_append_length. lia.
Qed.

(** X22. The line of exits that [render_game] builds fits its buffer of 256
    bytes whenever the location has at most [MAX_EXITS] exits and every
    direction has at most 29 bytes; it is then the word Exits, a colon and
    the directions in stored order, separated by commas. *)
Theorem exits_text_fits (l : Location) :
  0 < length (exits l) → length (exits l) ≤ MAX_EXITS →
  Forall (λ x, String.length (direction x) ≤ 29) (exits l) →
  exits_text l = Some ("Exits: " +:+ String.concat ", " (direction <$> exits l)).
Proof.
  unfold exits_text, MAX_EXITS. intros Hpos Hlen Hall.
  assert ((0 <? length (exits l)) = true) as -> by by apply Nat.ltb_lt.
  destruct (exits l) as [|e es]; [simpl in Hpos; lia|].
  apply Forall_cons in Hall as [He Hall]. rewrite length_cons in Hlen.
  rewrite fmap_cons, concat_comma.
  cbn [exits_text_loop].
  assert ((0 <? 0) = false) as -> by done.
  assert (String.length "Exits: " = 7) as Hhead by done.
  cbn [mbind option_bind].
  rewrite strcat_fits by lia. cbn [mbind option_bind].
  rewrite exits_text_loop_rest; [|lia| |done].
  - by rewrite str_append_assoc.
  - rewrite str_append_length. lia.
Qed.

Lemma exits_text_fits_witness :
  exits_text hall = Some "Exits: north, north, east".
Proof.
  rewrite (exits_text_fits hall); [reflexivity|simpl; lia|simpl; unfold MAX_EXITS; lia|].
  repeat constructor; simpl; lia.
Defined.

(** A text event of two bytes on a line of 254 bytes writes outside the
    buffer; so does the line of exits for eight directions of 31 bytes. *)
Example text_event_overflows :
  process_event unit unit (λ _, None) (λ _, None) "" "" (SDL_TEXTINPUT "ab")
    (boot two_rooms_doc,
     {| input_buffer := str_take 254 (long_id +:+ long_id +:+ long_id +:+ long_id);
        input_length := 254 |}) = None.
Proof. by vm_compute. Qed.

Example exits_text_overflows :
  exits_text
    (room "maze" (replicate 8 {| direction := str_take 31 long_id;
                                  target_location := "maze" |})) = None.
Proof. by vm_compute. Qed.

(** ** Movement does not read the flags *)

Lemma move_player_loop_flags (game : GameState) (dir : string) (es : list Exit)
    (pfs gfs : list (string * bool)) :
  let with_flags g := set_game_flags gfs (set_player (set_flags pfs (player g)) g) in
  move_player_loop (with_flags game) dir es
    = (ret_of (move_player_loop game dir es),
       with_flags (state_of (move_player_loop game dir es)),
       out_of (move_player_loop game dir es)).
Proof.
  intros with_flags. induction es as [|x es IH]; simpl; [done|].
  destruct (strcasecmp0 (direction x) dir); [|done].
  change (get_location_by_id (with_flags game) (target_location x))
    with (get_location_by_id game (target_location x)).
  by destruct (get_location_by_id game (target_location x)) as [[j t]|].
Qed.

(** X23. [move_player] does not look at any flag: with other contents in the
    two flag tables it returns the same result, prints the same and leaves
    the same state apart from those tables, so no requirement on a flag can
    stop a move. *)
Theorem move_player_ignores_flags (game : GameState) (dir : string)
    (pfs gfs : list (string * bool)) :
  let with_flags g := set_game_flags gfs (set_player (set_flags pfs (player g)) g) in
  move_player (with_flags game) dir
    = (ret_of (move_player game dir),
       with_flags (state_of (move_player game dir)),
       out_of (move_player game dir)).
Proof.
  intros with_flags. unfold move_player.
  change (get_current_location (with_flags game)) with (get_current_location game).
  destruct (get_current_location game) as [[i cur]|]; [|done].
  apply move_player_loop_flags.
Qed.
